(** * Proxy harvesting service (app.py): embedding and verification

    The development follows [src/app.py]: the source fetcher
    ([fetch_proxies_from_source]), the verifier ([test_proxy]), the harvest
    cycle ([update_proxy_cache], with its inlined de-duplication loop), the
    process-wide [proxy_cache] and the three read handlers ([get_proxies],
    [get_proxies_by_protocol], [get_stats]).

    Effects are explicit.  The wall clock and the network are oracles
    indexed by a call counter ([tick]), so that every run of the program
    corresponds to one choice of oracles; the prints of the program are
    recorded as a list of events, and the outbound requests as a list of
    (url, proxy) pairs.  The two thread pools of [update_proxy_cache] only
    gather results in submission order, so their tasks are run in that
    order here; which call receives which answer is the oracles' choice.

    A [string] is read as a sequence of code points below 256. *)

From Stdlib Require Import ZArith Lia Ascii.
From stdpp Require Import base gmap sets list strings pretty.

#[local] Set Warnings "-clear-no-such-hyp".

Local Open Scope string_scope.
Local Open Scope list_scope.
Local Open Scope Z_scope.

(** ** Python string operations used by the program *)

Module PyStr.

(** [str.isspace] on the code points below 256. *)
Definition isspace (c : ascii) : bool :=
  let n := nat_of_ascii c in
  ((9 <=? n)%nat && (n <=? 13)%nat)
  || ((28 <=? n)%nat && (n <=? 32)%nat)
  || (n =? 133)%nat || (n =? 160)%nat.

Fixpoint lstrip (s : string) : string :=
  match s with
  | EmptyString => EmptyString
  | String c s' => if isspace c then lstrip s' else s
  end.

Fixpoint rstrip (s : string) : string :=
  match s with
  | EmptyString => EmptyString
  | String c s' =>
      match rstrip s' with
      | EmptyString => if isspace c then EmptyString else String c EmptyString
      | r => String c r
      end
  end.

(** [s.strip()] *)
Definition strip (s : string) : string := lstrip (rstrip s).

Fixpoint startswith (s pre : string) {struct pre} : bool :=
  match pre, s with
  | EmptyString, _ => true
  | String _ _, EmptyString => false
  | String a pre', String b s' =>
      if decide (a = b) then startswith s' pre' else false
  end.

(** [needle in hay] *)
Fixpoint contains (needle hay : string) : bool :=
  startswith hay needle
  || match hay with
     | EmptyString => false
     | String _ hay' => contains needle hay'
     end.

(** [s.split(sep)] for a one-character separator. *)
Fixpoint split (sep : ascii) (s : string) : list string :=
  match s with
  | EmptyString => [EmptyString]
  | String c s' =>
      if decide (c = sep) then EmptyString :: split sep s'
      else match split sep s' with
           | h :: t => String c h :: t
           | [] => [String c EmptyString]
           end
  end.

End PyStr.

(** ** Data model *)

(** The values stored under the keys of a proxy dict. *)
Inductive pyval :=
| VNone
| VBool (b : bool)
| VInt (n : Z)
| VStr (s : string).

(** A proxy dict, as built at lines 45-52: its six keys as fields. *)
Record proxy := mkProxy {
  ip : string;
  port : string;
  protocol : string;
  source : string;
  last_checked : option string;
  working : option bool
}.

#[export] Instance proxy_eq_dec : EqDecision proxy.
Proof. solve_decision. Defined.

(** The dict itself: keys in insertion order with their run-time values. *)
Definition proxy_dict (p : proxy) : list (string * pyval) :=
  [ ("ip", VStr (ip p));
    ("port", VStr (port p));
    ("protocol", VStr (protocol p));
    ("source", VStr (source p));
    ("last_checked", from_option VStr VNone (last_checked p));
    ("working", from_option VBool VNone (working p)) ].

(** [d[key]] *)
Fixpoint dict_get (d : list (string * pyval)) (key : string) : option pyval :=
  match d with
  | [] => None
  | (k, v) :: d' => if decide (k = key) then Some v else dict_get d' key
  end.

(** Instants are counted in microseconds, the resolution of [datetime]. *)
Definition timedelta_minutes (m : Z) : Z := m * 60 * 1000000.

Definition CACHE_EXPIRATION_MINUTES : Z := 30.
Definition TEST_URL : string := "https://httpbin.org/ip".

(** The [proxy_cache] dict. *)
Record cache := mkCache {
  proxies : list proxy;
  last_updated : option Z;
  expires_in : Z
}.

(** Its value when the module is loaded (lines 18-22). *)
Definition initial_cache : cache :=
  {| proxies := [];
     last_updated := None;
     expires_in := timedelta_minutes CACHE_EXPIRATION_MINUTES |}.

(** ** The outside world *)

(** A parsed page as the program looks at it: its [table] elements in
    document order, each with its [tr] rows, each row with the text of its
    [td] cells. *)
Definition tr := list string.
Definition table := list tr.
Definition soup := list table.

Record response := mkResponse {
  status_code : Z;
  text : string
}.

(** The oracles.  [None] stands for a raised exception.  In
    [requests_get k url via], [k] numbers the call, and [via = Some u]
    stands for [proxies={'http': u, 'https': u}], the request being routed
    through the proxy [u]; [via = None] is a direct request. *)
Record Env := mkEnv {
  datetime_now : nat -> Z;
  isoformat : Z -> string;
  requests_get : nat -> string -> option string -> option response;
  BeautifulSoup : string -> option soup
}.

Inductive exn :=
| RequestException
| ParserError
| TypeError
| AttributeError
| IndexError.

(** What the program prints. *)
Inductive event :=
| EvCycleStart
| EvFetchError (url : string)
| EvProxyFailed (ip port : string)
| EvCycleEnd (n : nat).

#[export] Instance event_eq_dec : EqDecision event.
Proof. solve_decision. Defined.

Record state := mkState {
  proxy_cache : cache;
  tick : nat;
  stdout : list event;
  sent : list (string * option string)
}.

(** ** A state and exception monad *)

Inductive outcome (A : Type) :=
| Ok (a : A)
| Raised (e : exn).
Arguments Ok {A} a.
Arguments Raised {A} e.

Definition M (A : Type) : Type := state -> outcome A * state.

Definition ret {A} (a : A) : M A := fun s => (Ok a, s).

Definition raise {A} (e : exn) : M A := fun s => (Raised e, s).

Definition bind {A B} (m : M A) (k : A -> M B) : M B :=
  fun s =>
    match m s with
    | (Ok a, s') => k a s'
    | (Raised e, s') => (Raised e, s')
    end.

Notation "'let*' x ':=' m 'in' k" := (bind m (fun x => k))
  (at level 10, x name, m at level 100, k at level 200).
Notation "'do' m 'then' k" := (bind m (fun _ => k))
  (at level 10, m at level 100, k at level 200).

(** [try: body / except Exception as e: handler] *)
Definition try_except {A} (body : M A) (handler : exn -> M A) : M A :=
  fun s =>
    match body s with
    | (Ok a, s') => (Ok a, s')
    | (Raised e, s') => handler e s'
    end.

Definition print (e : event) : M unit :=
  fun s => (Ok tt, mkState (proxy_cache s) (tick s) (stdout s ++ [e]) (sent s)).

Definition get_cache : M cache := fun s => (Ok (proxy_cache s), s).

Definition set_proxies (ps : list proxy) : M unit :=
  fun s =>
    let c := proxy_cache s in
    (Ok tt, mkState (mkCache ps (last_updated c) (expires_in c))
                    (tick s) (stdout s) (sent s)).

Definition set_last_updated (t : Z) : M unit :=
  fun s =>
    let c := proxy_cache s in
    (Ok tt, mkState (mkCache (proxies c) (Some t) (expires_in c))
                    (tick s) (stdout s) (sent s)).

(** ** De-duplication (lines 105-112 of [update_proxy_cache]) *)

(** [f"{proxy['ip']}:{proxy['port']}"] *)
Definition identifier (p : proxy) : string := ip p +:+ ":" +:+ port p.

(** The loop, with its two accumulators [seen] and [unique_proxies]. *)
Fixpoint dedupe_loop (all_proxies : list proxy) (seen : gset string)
    (unique_proxies : list proxy) : list proxy :=
  match all_proxies with
  | [] => unique_proxies
  | p :: rest =>
      if decide (identifier p ∈ seen)
      then dedupe_loop rest seen unique_proxies
      else dedupe_loop rest ({[identifier p]} ∪ seen) (unique_proxies ++ [p])
  end.

Definition dedupe (all_proxies : list proxy) : list proxy :=
  dedupe_loop all_proxies ∅ [].

(** ** Source fetcher: the part that reads the table (lines 35-52) *)

(** ['https' if 'ssl' in url else 'http'] *)
Definition infer_protocol (url : string) : string :=
  if PyStr.contains "ssl" url then "https" else "http".

(** The dict appended for a row with at least two cells. *)
Definition row_proxy (url : string) (c0 c1 : string) : proxy :=
  {| ip := PyStr.strip c0;
     port := PyStr.strip c1;
     protocol := infer_protocol url;
     source := url;
     last_checked := None;
     working := None |}.

(** [for row in rows: ...] with the accumulator [proxies]. *)
Fixpoint rows_loop (url : string) (rows : list tr) (acc : list proxy)
    : list proxy :=
  match rows with
  | [] => acc
  | row :: rest =>
      match row with
      | c0 :: c1 :: _ => rows_loop url rest (acc ++ [row_proxy url c0 c1])
      | _ => rows_loop url rest acc
      end
  end.

(** [table.find_all('tr')[1:20]] *)
Definition rows_slice (t : table) : list tr := take 19 (drop 1 t).

Definition parse_soup (url parser_type : string) (sp : soup) : list proxy :=
  if decide (parser_type = "table") then
    match sp with
    | t :: _ => rows_loop url (rows_slice t) []
    | [] => []
    end
  else [].

(** The four configured sources (lines 83-88). *)
Definition sources : list (string * string) :=
  [ ("https://www.sslproxies.org/", "table");
    ("https://free-proxy-list.net/", "table");
    ("https://hidemy.name/es/proxy-list/", "table");
    ("https://proxyscrape.com/free-proxy-list", "table") ].

(** ['Protocolo no v\u00e1lido. Use http o https'] (line 157); the
    accented letter is the code point 225. *)
Definition invalid_protocol_message : string :=
  "Protocolo no v" +:+ String "225"%char "lido. Use http o https".

(** What a handler sends back: the jsonified dict and the status. *)
Inductive body :=
| ProxiesBody (count : nat) (last_updated : string) (proxies : list proxy)
| ByProtocolBody (count : nat) (protocol : string) (proxies : list proxy)
| StatsBody (total_proxies http_proxies https_proxies : Z)
    (sources : gmap string Z) (last_updated : string)
| ErrorBody (error : string).

Definition http_response : Type := body * Z.

Definition jsonify (b : body) : http_response := (b, 200).

(** ** The program *)

Section Program.

Context (E : Env).

(** [datetime.now()] *)
Definition now : M Z :=
  fun s =>
    (Ok (datetime_now E (tick s)),
     mkState (proxy_cache s) (S (tick s)) (stdout s) (sent s)).

(** [requests.get(url, proxies=..., timeout=REQUEST_TIMEOUT)] *)
Definition http_get (url : string) (via : option string) : M response :=
  fun s =>
    let s' := mkState (proxy_cache s) (S (tick s)) (stdout s)
                      (sent s ++ [(url, via)]) in
    match requests_get E (tick s) url via with
    | Some r => (Ok r, s')
    | None => (Raised RequestException, s')
    end.

(** [BeautifulSoup(response.text, 'html.parser')] *)
Definition parse_html (txt : string) : M soup :=
  match BeautifulSoup E txt with
  | Some sp => ret sp
  | None => raise ParserError
  end.

Definition fetch_proxies_from_source (url parser_type : string)
    : M (list proxy) :=
  try_except
    (let* response := http_get url None in
     let* sp := parse_html (text response) in
     ret (parse_soup url parser_type sp))
    (fun _ => do print (EvFetchError url) then ret []).

(** [f"{proxy['protocol']}://{proxy['ip']}:{proxy['port']}"] *)
Definition proxy_url (p : proxy) : string :=
  protocol p +:+ "://" +:+ ip p +:+ ":" +:+ port p.

(** [proxy['last_checked'] = ...; proxy['working'] = True].  The program
    updates the dict in place and returns it; the lists that still refer
    to it ([all_proxies], [unique_proxies]) are dropped when the cycle
    ends, so the update is written as a new record. *)
Definition mark_working (p : proxy) (checked : string) : proxy :=
  {| ip := ip p; port := port p; protocol := protocol p; source := source p;
     last_checked := Some checked; working := Some true |}.

Definition test_proxy (p : proxy) : M (option proxy) :=
  try_except
    (let* response := http_get TEST_URL (Some (proxy_url p)) in
     if decide (status_code response = 200) then
       let* t := now in
       ret (Some (mark_working p (isoformat E t)))
     else ret None)
    (fun _ => do print (EvProxyFailed (ip p) (port p)) then ret None).

(** The fetch fan-out (lines 93-103).  The pool runs the fetches
    concurrently and the loop over [futures] gathers their results in the
    order of [sources].  Here the fetches run one after the other, which
    is one of the schedules of the pool: the order in which the calls of
    one pool are numbered, sent and logged is this model's choice, and the
    statements about a pool are made for call numbers that they leave
    open. *)
Fixpoint fetch_all (srcs : list (string * string)) : M (list proxy) :=
  match srcs with
  | [] => ret []
  | (url, parser) :: rest =>
      let* found := fetch_proxies_from_source url parser in
      let* others := fetch_all rest in
      ret (found ++ others)
  end.

(** [executor.map(test_proxy, unique_proxies)] (lines 116-120), keeping
    the results that are not [None].  [executor.map] yields the results in
    the order of its input; the probes themselves run concurrently, and
    are run one after the other here (see [fetch_all]). *)
Fixpoint verify_all (unique_proxies : list proxy) : M (list proxy) :=
  match unique_proxies with
  | [] => ret []
  | p :: rest =>
      let* result := test_proxy p in
      let* others := verify_all rest in
      ret (match result with Some q => q :: others | None => others end)
  end.

(** Lines 90-120: fetch from every source, de-duplicate, verify. *)
Definition harvest : M (list proxy) :=
  let* all_proxies := fetch_all sources in
  verify_all (dedupe all_proxies).

(** Lines 90-125: everything after the first print. *)
Definition harvest_and_publish : M unit :=
  let* working_proxies := harvest in
  do set_proxies working_proxies then
  let* t := now in
  do set_last_updated t then
  print (EvCycleEnd (length working_proxies)).

Definition update_proxy_cache : M unit :=
  do print EvCycleStart then
  harvest_and_publish.

(** The condition of lines 143-144 and 159-160:
    [not proxy_cache['proxies'] or
     datetime.now() > proxy_cache['last_updated'] + proxy_cache['expires_in']] *)
Definition cache_expired : M bool :=
  let* c := get_cache in
  match proxies c with
  | [] => ret true
  | _ :: _ =>
      let* t := now in
      match last_updated c with
      | None => raise TypeError
      | Some lu => ret (bool_decide (t > lu + expires_in c))
      end
  end.

(** [proxy_cache['last_updated'].isoformat()] *)
Definition last_updated_iso (c : cache) : M string :=
  match last_updated c with
  | None => raise AttributeError
  | Some lu => ret (isoformat E lu)
  end.

Definition respond_proxies : M http_response :=
  let* c := get_cache in
  let* iso := last_updated_iso c in
  ret (jsonify (ProxiesBody (length (proxies c)) iso (proxies c))).

Definition get_proxies : M http_response :=
  let* expired := cache_expired in
  do (if expired : bool then update_proxy_cache else ret tt) then
  respond_proxies.

Definition get_proxies_by_protocol (proto : string) : M http_response :=
  if decide (proto = "http" ∨ proto = "https") then
    let* expired := cache_expired in
    do (if expired : bool then update_proxy_cache else ret tt) then
    let* c := get_cache in
    let filtered := filter (λ p, protocol p = proto) (proxies c) in
    ret (jsonify (ByProtocolBody (length filtered) proto filtered))
  else
    ret (ErrorBody invalid_protocol_message, 400).

(** The [sources] counting loop of [get_stats] (lines 180-183). *)
Fixpoint count_sources (ps : list proxy) (acc : gmap string Z)
    : M (gmap string Z) :=
  match ps with
  | [] => ret acc
  | p :: rest =>
      match PyStr.split "/" (source p) !! 2%nat with
      | None => raise IndexError
      | Some domain =>
          count_sources rest (<[domain := default 0 (acc !! domain) + 1]> acc)
      end
  end.

Definition get_stats : M http_response :=
  let* c := get_cache in
  do (match proxies c with [] => update_proxy_cache | _ :: _ => ret tt end) then
  let* c := get_cache in
  let http_count :=
    Z.of_nat (length (filter (λ p, protocol p = "http") (proxies c))) in
  let https_count := Z.of_nat (length (proxies c)) - http_count in
  let* srcs := count_sources (proxies c) ∅ in
  let* iso := last_updated_iso c in
  ret (jsonify (StatsBody (Z.of_nat (length (proxies c)))
                           http_count https_count srcs iso)).

End Program.

(** ** Observations on a state *)

(** The number of harvest cycles started so far: one per
    "Actualizando caché de proxies..." line printed. *)
Definition cycles_run (s : state) : nat :=
  length (filter (λ e, e = EvCycleStart) (stdout s)).

(** The condition under which lines 143-145 call [update_proxy_cache],
    when the clock is read at the current tick. *)
Definition empty_or_stale (E : Env) (s : state) : Prop :=
  proxies (proxy_cache s) = []
  ∨ ∃ T, last_updated (proxy_cache s) = Some T
         ∧ datetime_now E (tick s) > T + expires_in (proxy_cache s).

(** A step that neither touches the cache nor starts a cycle. *)
Definition quiet (s s' : state) : Prop :=
  proxy_cache s' = proxy_cache s ∧ cycles_run s' = cycles_run s.

(** The clock has been read once; nothing else has changed. *)
Definition ticked (s : state) : state :=
  mkState (proxy_cache s) (S (tick s)) (stdout s) (sent s).

(** The state right after the first print of [update_proxy_cache]. *)
Definition started (s : state) : state :=
  mkState (proxy_cache s) (tick s) (stdout s ++ [EvCycleStart]) (sent s).

(** The state in which a cycle that harvested [working_proxies] and ended
    in [s1] leaves the program. *)
Definition published (E : Env) (working_proxies : list proxy) (s1 : state)
    : state :=
  mkState (mkCache working_proxies (Some (datetime_now E (tick s1)))
                   (expires_in (proxy_cache s1)))
          (S (tick s1))
          (stdout s1 ++ [EvCycleEnd (length working_proxies)])
          (sent s1).

(** The identity of a candidate in the data model: the pair, not the
    joined string. *)
Definition endpoint (p : proxy) : string * string := (ip p, port p).

(** What a row contributes to the result of the fetcher. *)
Definition candidate (url : string) (row : tr) : option proxy :=
  match row with
  | c0 :: c1 :: _ => Some (row_proxy url c0 c1)
  | _ => None
  end.

(** "The port field is an integer from 1 to 65535", read on the dict. *)
Definition port_is_valid_integer (p : proxy) : Prop :=
  ∃ n, dict_get (proxy_dict p) "port" = Some (VInt n) ∧ 1 <= n <= 65535.

(** ** Concurrent [GET /proxies] requests

    Each request runs [get_proxies] in a thread of its own on the shared
    [state].  A thread is interrupted only between the steps below: the
    test of line 143, the entry into [update_proxy_cache], the rest of
    the cycle and the construction of the response.  The program takes no
    lock, so any thread may run next. *)

Inductive pc :=
| AtCheck
| AtUpdate
| AtHarvest
| AtRespond
| Finished (r : outcome http_response).

Record config := mkConfig {
  shared : state;
  threads : list pc
}.

Section Threads.

Context (E : Env).

Definition step_thread (p : pc) (s : state) : pc * state :=
  match p with
  | AtCheck =>
      match cache_expired E s with
      | (Ok true, s') => (AtUpdate, s')
      | (Ok false, s') => (AtRespond, s')
      | (Raised e, s') => (Finished (Raised e), s')
      end
  | AtUpdate =>
      match print EvCycleStart s with
      | (_, s') => (AtHarvest, s')
      end
  | AtHarvest =>
      match harvest_and_publish E s with
      | (Ok _, s') => (AtRespond, s')
      | (Raised e, s') => (Finished (Raised e), s')
      end
  | AtRespond =>
      match respond_proxies E s with
      | (r, s') => (Finished r, s')
      end
  | Finished r => (Finished r, s)
  end.

(** Thread [i] takes one step (nothing happens if there is no thread [i]). *)
Definition step (c : config) (i : nat) : config :=
  match threads c !! i with
  | None => c
  | Some p =>
      let '(p', s') := step_thread p (shared c) in
      mkConfig s' (<[i := p']> (threads c))
  end.

(** A schedule names the thread that runs at each step. *)
Definition run (schedule : list nat) (c : config) : config :=
  foldl step c schedule.

End Threads.

(** [n] requests arrive while the shared state is [s]. *)
Definition spawn (n : nat) (s : state) : config :=
  mkConfig s (replicate n AtCheck).

Definition is_finished (p : pc) : bool :=
  match p with Finished _ => true | _ => false end.

Definition all_finished (c : config) : Prop :=
  forallb is_finished (threads c) = true.

(** The number of threads in a given class of program points. *)
Definition count_pcs (f : pc → bool) (l : list pc) : nat :=
  length (filter (λ p, f p = true) l).

(** Threads that are inside [update_proxy_cache]. *)
Definition in_cycle (p : pc) : bool :=
  match p with AtHarvest => true | _ => false end.

Definition in_flight (c : config) : nat := count_pcs in_cycle (threads c).

(** Threads that may still start a cycle. *)
Definition may_start (p : pc) : bool :=
  match p with AtCheck | AtUpdate => true | _ => false end.

(** Threads whose next step enters [update_proxy_cache]. *)
Definition starts_cycle (p : pc) : bool :=
  match p with AtUpdate => true | _ => false end.

Definition b2n (b : bool) : nat := if b then 1%nat else 0%nat.

(** What holds of every configuration reached by [n] requests that
    arrived in state [s0]. *)
Definition bounds_inv (s0 : state) (n : nat) (c : config) : Prop :=
  (cycles_run s0 ≤ cycles_run (shared c))%nat
  ∧ (cycles_run (shared c) + count_pcs may_start (threads c)
     ≤ cycles_run s0 + n)%nat
  ∧ (in_flight c + cycles_run s0 ≤ cycles_run (shared c))%nat.

(** Either no request has moved yet, or a cycle has been started, or some
    request is about to start one. *)
Definition progress_inv (s0 : state) (n : nat) (c : config) : Prop :=
  (threads c = replicate n AtCheck ∧ shared c = s0)
  ∨ (cycles_run s0 < cycles_run (shared c))%nat
  ∨ ((cycles_run s0 ≤ cycles_run (shared c))%nat
     ∧ ∃ i, threads c !! i = Some AtUpdate).

(** ** Further observations *)

Definition first_char (s : string) : option ascii :=
  match s with
  | EmptyString => None
  | String c _ => Some c
  end.

Fixpoint last_char (s : string) : option ascii :=
  match s with
  | EmptyString => None
  | String c rest =>
      match rest with
      | EmptyString => Some c
      | String _ _ => last_char rest
      end
  end.

(** A string that neither starts nor ends with white space. *)
Definition trimmed (s : string) : Prop :=
  ∀ c, first_char s = Some c ∨ last_char s = Some c →
       PyStr.isspace c = false.

(** [proxy['source'].split('/')[2]], when the url has such a part. *)
Definition domain_of (p : proxy) : option string :=
  PyStr.split "/" (source p) !! 2%nat.

(** The sum of the values of a [sources] dict. *)
Definition sum_counts (m : gmap string Z) : Z :=
  map_fold (λ _ v acc, v + acc) 0 m.

(** The number of entries that satisfy a test. *)
Definition count_where (P : proxy → Prop) `{!∀ p, Decision (P p)}
    (ps : list proxy) : Z :=
  Z.of_nat (length (filter P ps)).

Definition configured_urls : list string := sources.*1.

(** The status codes of the 2xx class, which HTTP calls successful. *)
Definition successful_status (code : Z) : Prop := 200 <= code < 300.

(** What the fetcher returns for a source when its request is the call
    number [k]. *)
Definition fetch_result (E : Env) (src : string * string) (k : nat)
    : list proxy :=
  match requests_get E k src.1 None with
  | Some r =>
      match BeautifulSoup E (text r) with
      | Some sp => parse_soup src.1 src.2 sp
      | None => []
      end
  | None => []
  end.

(** What [test_proxy] returns for a candidate when its probe is the call
    number [kk.1] and the clock is read, for an accepted candidate, at the
    call number [kk.2]. *)
Definition probe_verdict (E : Env) (p : proxy) (kk : nat * nat)
    : option proxy :=
  match requests_get E kk.1 TEST_URL (Some (proxy_url p)) with
  | Some r =>
      if decide (status_code r = 200)
      then Some (mark_working p (isoformat E (datetime_now E kk.2)))
      else None
  | None => None
  end.

(** The address and the port of [p] are the stripped texts of the first
    two cells of a row, among the rows 1 to 19 of the first table, of the
    page that the call number [k] returned for the configured source
    [source p]. *)
Definition scraped_at (E : Env) (k : nat) (p : proxy) : Prop :=
  ∃ parser r t others i c0 c1 rest,
    (source p, parser) ∈ sources
    ∧ requests_get E k (source p) None = Some r
    ∧ BeautifulSoup E (text r) = Some (t :: others)
    ∧ (1 ≤ i ≤ 19)%nat
    ∧ t !! i = Some (c0 :: c1 :: rest)
    ∧ ip p = PyStr.strip c0
    ∧ port p = PyStr.strip c1.

(** Scraped by a call made from the call number [k0] on and before the
    call number [k1]. *)
Definition scraped_between (E : Env) (k0 k1 : nat) (p : proxy) : Prop :=
  ∃ k, (k0 ≤ k < k1)%nat ∧ scraped_at E k p.

(** Every cached entry was scraped by a call made before the present one. *)
Definition cache_scraped (E : Env) (s : state) : Prop :=
  Forall (scraped_between E 0 (tick s)) (proxies (proxy_cache s)).

(** What every entry written by a cycle looks like. *)
Definition harvested_entry (p : proxy) : Prop :=
  source p ∈ configured_urls
  ∧ protocol p = infer_protocol (source p)
  ∧ working p = Some true
  ∧ is_Some (last_checked p).

(** What every cache written by a cycle looks like. *)
Definition cycle_cache (c : cache) : Prop :=
  is_Some (last_updated c)
  ∧ NoDup (endpoint <$> proxies c)
  ∧ Forall harvested_entry (proxies c)
  ∧ (length (proxies c) ≤ 19 * length sources)%nat.

(** The requests a probe and a source fetch put on the wire. *)
Definition probe_request (p : proxy) : string * option string :=
  (TEST_URL, Some (proxy_url p)).

Definition source_request (src : string * string) : string * option string :=
  (src.1, None).

(** ** The server: requests handled one after the other *)

Inductive request :=
| GetProxies
| GetProxiesByProtocol (proto : string)
| GetStats.

Section Server.

Context (E : Env).

Definition handle (r : request) : M http_response :=
  match r with
  | GetProxies => get_proxies E
  | GetProxiesByProtocol proto => get_proxies_by_protocol E proto
  | GetStats => get_stats E
  end.

(** A handler that raises is answered with an error page by the
    framework; the process goes on with the state the handler left. *)
Fixpoint serve (reqs : list request) (s : state)
    : list (outcome http_response) * state :=
  match reqs with
  | [] => ([], s)
  | r :: rest =>
      let '(o, s1) := handle r s in
      let '(os, s2) := serve rest s1 in
      (o :: os, s2)
  end.

(** Lines 193-195: the cache is loaded before the first request. *)
Definition startup : state :=
  (update_proxy_cache E (mkState initial_cache 0 [] [])).2.

End Server.

(** Every entry listed in an answer to [GET /proxies] has been scraped. *)
Definition lists_scraped (E : Env) (r : request)
    (o : outcome http_response) : Prop :=
  match r, o with
  | GetProxies, Ok (ProxiesBody _ _ ps, _) =>
      Forall (λ q, (∃ k, scraped_at E k q)
                   ∧ dict_get (proxy_dict q) "port" = Some (VStr (port q)))
             ps
  | _, _ => True
  end.

(** The answer a request is owed on a cache written by a cycle: never an
    exception; status 400 exactly for an unknown protocol; lists without
    repeated endpoints; counts that add up. *)
Definition well_answered (r : request) (o : outcome http_response) : Prop :=
  match r, o with
  | GetProxies, Ok (ProxiesBody n _ ps, st) =>
      st = 200 ∧ n = length ps
      ∧ NoDup (endpoint <$> ps) ∧ Forall harvested_entry ps
  | GetProxiesByProtocol proto, Ok (ByProtocolBody n proto' ps, st) =>
      st = 200 ∧ (proto = "http" ∨ proto = "https") ∧ proto' = proto
      ∧ n = length ps ∧ NoDup (endpoint <$> ps)
      ∧ Forall (λ p, protocol p = proto ∧ harvested_entry p) ps
  | GetProxiesByProtocol proto, Ok (ErrorBody _, st) =>
      st = 400 ∧ proto ≠ "http" ∧ proto ≠ "https"
  | GetStats, Ok (StatsBody total http https srcs _, st) =>
      st = 200 ∧ 0 <= http ∧ 0 <= https ∧ http + https = total
      ∧ sum_counts srcs = total
  | _, _ => False
  end.

(** ** Concrete worlds used in the examples *)

Module Fixtures.

(** One source answers with a two-row table, the others fail; every probe
    succeeds. *)
Definition one_row_world : Env :=
  {| datetime_now := fun n => Z.of_nat n;
     isoformat := fun t => "T" +:+ pretty t;
     requests_get := fun _ url via =>
       match via with
       | Some _ => Some (mkResponse 200 "")
       | None =>
           if decide (url = "https://free-proxy-list.net/")
           then Some (mkResponse 200 "<table>")
           else None
       end;
     BeautifulSoup := fun _ =>
       Some [[["IP Address"; "Port"]; ["1.2.3.4"; "8080"]]] |}.

Definition fresh_start : state := mkState initial_cache 0 [] [].

(** Two requests that both test the cache before either starts its cycle,
    and the same schedule continued until both have answered. *)
Definition both_test_first : list nat := [0; 1; 0; 1]%nat.
Definition both_to_the_end : list nat := [0; 1; 0; 1; 0; 1; 0; 1]%nat.

(** Two requests served one after the other. *)
Definition one_after_the_other : list nat := [0; 0; 0; 0; 1; 1; 1; 1]%nat.

Definition scraped_candidate : proxy :=
  {| ip := "1.2.3.4"; port := "8080"; protocol := "http";
     source := "https://free-proxy-list.net/";
     last_checked := None; working := None |}.

Definition served_entry : proxy :=
  {| ip := "1.2.3.4"; port := "8080"; protocol := "http";
     source := "https://free-proxy-list.net/";
     last_checked := Some "T5"; working := Some true |}.

(** A world whose clock stands 31 minutes after the instant 0. *)
Definition late_world : Env :=
  {| datetime_now := fun n => timedelta_minutes 31;
     isoformat := fun t => "T" +:+ pretty t;
     requests_get := fun _ _ _ => None;
     BeautifulSoup := fun _ => None |}.

(** A world whose clock stands 29 minutes after the instant 0. *)
Definition early_world : Env :=
  {| datetime_now := fun n => timedelta_minutes 29;
     isoformat := fun t => "T" +:+ pretty t;
     requests_get := fun _ _ _ => None;
     BeautifulSoup := fun _ => None |}.

(** A cache filled at the instant 0. *)
Definition filled_at_zero : state :=
  mkState (mkCache [served_entry] (Some 0)
                   (timedelta_minutes CACHE_EXPIRATION_MINUTES))
          0 [] [].

Definition conflated_first : proxy :=
  {| ip := "a:b"; port := "c"; protocol := "http"; source := "u";
     last_checked := None; working := None |}.

Definition conflated_second : proxy :=
  {| ip := "a"; port := "b:c"; protocol := "http"; source := "u";
     last_checked := None; working := None |}.

Definition http_entry (a : string) : proxy :=
  {| ip := a; port := "80"; protocol := "http"; source := "u";
     last_checked := Some "T0"; working := Some true |}.

Definition https_entry (a : string) : proxy :=
  {| ip := a; port := "443"; protocol := "https"; source := "u";
     last_checked := Some "T0"; working := Some true |}.

(** Two http and three https entries, filled at the instant 0. *)
Definition mixed_cache : state :=
  mkState (mkCache [http_entry "h1"; https_entry "s1"; https_entry "s2";
                    http_entry "h2"; https_entry "s3"]
                   (Some 0) (timedelta_minutes CACHE_EXPIRATION_MINUTES))
          0 [] [].

(** A table whose first row and whose twenty following rows all have two
    cells. *)
Definition long_table : table :=
  ["IP Address"; "Port"]
  :: ((λ k : nat, ["10.0.0." +:+ pretty k; "8080"]) <$> seq 1 20).

Definition long_table_world : Env :=
  {| datetime_now := fun n => Z.of_nat n;
     isoformat := fun t => "T" +:+ pretty t;
     requests_get := fun _ _ _ => Some (mkResponse 200 "<table>");
     BeautifulSoup := fun _ => Some [long_table] |}.

(** Every probe is answered with 204 No Content. *)
Definition no_content_world : Env :=
  {| datetime_now := fun n => Z.of_nat n;
     isoformat := fun t => "T" +:+ pretty t;
     requests_get := fun _ _ _ => Some (mkResponse 204 "");
     BeautifulSoup := fun _ => Some [] |}.

End Fixtures.

(** * Proofs *)

(** ** Strings *)

Lemma startswith_app (pre rest : string) :
  PyStr.startswith (pre +:+ rest) pre = true.
Proof.
  induction pre as [|a pre IH]; simpl; [done|].
  by rewrite decide_True.
Qed.

Lemma startswith_inv (s pre : string) :
  PyStr.startswith s pre = true → ∃ rest, s = pre +:+ rest.
Proof.
  revert s. induction pre as [|a pre IH]; intros s Hs; simpl in *.
  - by exists s.
  - destruct s as [|b s]; [done|].
    destruct (decide (a = b)) as [->|]; [|done].
    destruct (IH _ Hs) as [rest ->]. by exists rest.
Qed.

Lemma contains_startswith (needle hay : string) :
  PyStr.startswith hay needle = true → PyStr.contains needle hay = true.
Proof. intros H. destruct hay; simpl; by rewrite H. Qed.

(** [needle in hay] holds exactly when [hay] splits around [needle]. *)
Lemma contains_spec (needle hay : string) :
  PyStr.contains needle hay = true
  ↔ ∃ before after, hay = before +:+ needle +:+ after.
Proof.
  split.
  - induction hay as [|c hay IH]; simpl; intros H.
    + apply orb_true_iff in H as [H|H]; [|done].
      apply startswith_inv in H as [rest Heq]. by exists "", rest.
    + apply orb_true_iff in H as [H|H].
      * apply startswith_inv in H as [rest Heq]. by exists "", rest.
      * destruct (IH H) as (before & after & ->).
        by exists (String c before), after.
  - intros (before & after & ->).
    induction before as [|c before IH]; simpl.
    + change (PyStr.contains needle (needle +:+ after) = true).
      apply contains_startswith, startswith_app.
    + rewrite IH. apply orb_true_r.
Qed.

Example strip_port_cell :
  PyStr.strip (" 8080" +:+ String "010"%char " ") = "8080".
Proof. reflexivity. Qed.

Example split_source_url :
  PyStr.split "/" "https://free-proxy-list.net/"
  = ["https:"; ""; "free-proxy-list.net"; ""].
Proof. reflexivity. Qed.

Example ssl_marker :
  infer_protocol "https://www.sslproxies.org/" = "https"
  ∧ infer_protocol "https://free-proxy-list.net/" = "http".
Proof. split; reflexivity. Qed.

(** ** De-duplication *)

Section DedupeFacts.

Implicit Types (l : list proxy) (seen : gset string).

(** The accumulator [unique_proxies] is only ever appended to. *)
Lemma dedupe_loop_acc l seen acc :
  dedupe_loop l seen acc = acc ++ dedupe_loop l seen [].
Proof.
  revert seen acc. induction l as [|p l IH]; intros seen acc; simpl.
  - by rewrite app_nil_r.
  - case_decide; [done|].
    rewrite (IH _ (acc ++ [p])), (IH _ [p]). by rewrite <- app_assoc.
Qed.

Lemma dedupe_loop_cons p l seen :
  dedupe_loop (p :: l) seen [] =
    if decide (identifier p ∈ seen) then dedupe_loop l seen []
    else p :: dedupe_loop l ({[identifier p]} ∪ seen) [].
Proof. simpl. case_decide; [done|]. by rewrite dedupe_loop_acc. Qed.

Lemma dedupe_loop_sublist l seen :
  dedupe_loop l seen [] `sublist_of` l.
Proof.
  revert seen. induction l as [|p l IH]; intros seen.
  - done.
  - rewrite dedupe_loop_cons. case_decide.
    + by apply sublist_cons.
    + by apply sublist_skip.
Qed.

Lemma dedupe_loop_unseen l seen q :
  q ∈ dedupe_loop l seen [] → identifier q ∉ seen.
Proof.
  revert seen. induction l as [|p l IH]; intros seen.
  - by intros ?%elem_of_nil.
  - rewrite dedupe_loop_cons. case_decide.
    + apply IH.
    + intros [->|Hq%IH]%elem_of_cons; [done|]. set_solver.
Qed.

Lemma dedupe_loop_NoDup l seen :
  NoDup (identifier <$> dedupe_loop l seen []).
Proof.
  revert seen. induction l as [|p l IH]; intros seen.
  - constructor.
  - rewrite dedupe_loop_cons. case_decide; [apply IH|].
    rewrite fmap_cons. constructor; [|apply IH].
    intros (q & Heq & Hq%dedupe_loop_unseen)%list_elem_of_fmap.
    set_solver.
Qed.

Lemma dedupe_loop_app l1 l2 seen :
  dedupe_loop (l1 ++ l2) seen [] =
    dedupe_loop l1 seen []
    ++ dedupe_loop l2 (seen ∪ list_to_set (identifier <$> l1)) [].
Proof.
  revert seen. induction l1 as [|p l1 IH]; intros seen.
  - simpl. f_equal. set_solver.
  - rewrite <- app_comm_cons, !dedupe_loop_cons. case_decide.
    + rewrite IH. do 2 f_equal. set_solver.
    + rewrite IH. simpl. do 3 f_equal. set_solver.
Qed.

Lemma dedupe_loop_covers l seen p :
  p ∈ l →
  identifier p ∈ seen
  ∨ ∃ q, q ∈ dedupe_loop l seen [] ∧ identifier q = identifier p.
Proof.
  revert seen. induction l as [|p' l IH]; intros seen.
  - by intros ?%elem_of_nil.
  - rewrite dedupe_loop_cons. intros [->|Hp]%elem_of_cons.
    + case_decide; [by left|]. right. exists p'. split; [left|done].
    + case_decide.
      * apply IH, Hp.
      * destruct (IH ({[identifier p']} ∪ seen) Hp) as [Hin|(q & Hq & Heq)].
        -- apply elem_of_union in Hin as [->%elem_of_singleton|Hin].
           ++ right. exists p'. split; [left|done].
           ++ by left.
        -- right. exists q. split; [by right|done].
Qed.

(** Entries with the same (address, port) have the same identifier. *)
Lemma endpoint_identifier (p q : proxy) :
  endpoint p = endpoint q → identifier p = identifier q.
Proof. unfold endpoint, identifier. by intros [= -> ->]. Qed.

End DedupeFacts.

(** ** Source fetcher *)

Lemma rows_loop_omap (url : string) (rows : list tr) (acc : list proxy) :
  rows_loop url rows acc = acc ++ omap (candidate url) rows.
Proof.
  revert acc. induction rows as [|row rows IH]; intros acc; simpl.
  - by rewrite app_nil_r.
  - destruct row as [|c0 [|c1 row]]; simpl; rewrite IH; [done..|].
    by rewrite <- app_assoc.
Qed.

Lemma rows_slice_length (t : table) : (length (rows_slice t) ≤ 19)%nat.
Proof. unfold rows_slice. rewrite length_take. lia. Qed.

Lemma candidate_None (url : string) (row : tr) :
  candidate url row = None ↔ (length row < 2)%nat.
Proof.
  destruct row as [|c0 [|c1 row]]; simpl; split; (done || lia).
Qed.

Lemma omap_candidate_length (url : string) (rows : list tr) :
  length (omap (candidate url) rows)
  = length (filter (λ row, (2 ≤ length row)%nat) rows).
Proof.
  induction rows as [|row rows IH]; [done|].
  rewrite filter_cons.
  destruct row as [|c0 [|c1 row]]; case_decide; simpl in *;
    try lia; try exact IH.
  f_equal. exact IH.
Qed.

Lemma infer_protocol_cases (url : string) :
  (infer_protocol url = "https" ∧ PyStr.contains "ssl" url = true)
  ∨ (infer_protocol url = "http" ∧ PyStr.contains "ssl" url = false).
Proof. unfold infer_protocol. destruct (PyStr.contains _ _); auto. Qed.

(** ** Effects of the building blocks *)

Lemma cycles_run_snoc (c : cache) (n : nat) (out : list event) (e : event)
    (net : list (string * option string)) :
  cycles_run (mkState c n (out ++ [e]) net)
  = (cycles_run (mkState c n out net)
     + if decide (e = EvCycleStart) then 1 else 0)%nat.
Proof.
  unfold cycles_run; simpl. rewrite filter_app, length_app, filter_cons.
  case_decide; simpl; lia.
Qed.

Lemma quiet_refl (s : state) : quiet s s.
Proof. done. Qed.

Lemma quiet_trans (s1 s2 s3 : state) :
  quiet s1 s2 → quiet s2 s3 → quiet s1 s3.
Proof. intros [? ?] [? ?]. split; congruence. Qed.

Section Effects.

Context (E : Env).

(** The fetcher, evaluated. *)
Lemma fetch_proxies_from_source_eq (url parser_type : string) (s : state) :
  fetch_proxies_from_source E url parser_type s =
    let net := sent s ++ [(url, None)] in
    let failed :=
      (Ok [], mkState (proxy_cache s) (S (tick s))
                      (stdout s ++ [EvFetchError url]) net) in
    match requests_get E (tick s) url None with
    | None => failed
    | Some r =>
        match BeautifulSoup E (text r) with
        | None => failed
        | Some sp =>
            (Ok (parse_soup url parser_type sp),
             mkState (proxy_cache s) (S (tick s)) (stdout s) net)
        end
    end.
Proof.
  unfold fetch_proxies_from_source, try_except, bind, http_get, parse_html.
  destruct (requests_get E (tick s) url None) as [r|]; simpl; [|done].
  destruct (BeautifulSoup E (text r)); done.
Qed.

(** The verifier, evaluated. *)
Lemma test_proxy_eq (p : proxy) (s : state) :
  test_proxy E p s =
    let net := sent s ++ [(TEST_URL, Some (proxy_url p))] in
    match requests_get E (tick s) TEST_URL (Some (proxy_url p)) with
    | None =>
        (Ok None, mkState (proxy_cache s) (S (tick s))
                          (stdout s ++ [EvProxyFailed (ip p) (port p)]) net)
    | Some r =>
        if decide (status_code r = 200) then
          (Ok (Some (mark_working p
                       (isoformat E (datetime_now E (S (tick s)))))),
           mkState (proxy_cache s) (S (S (tick s))) (stdout s) net)
        else
          (Ok None, mkState (proxy_cache s) (S (tick s)) (stdout s) net)
    end.
Proof.
  unfold test_proxy, try_except, bind, http_get.
  destruct (requests_get E (tick s) TEST_URL _) as [r|]; simpl; [|done].
  by case_decide.
Qed.

Lemma fetch_proxies_from_source_quiet (url parser_type : string) (s : state) :
  ∃ found s', fetch_proxies_from_source E url parser_type s = (Ok found, s')
              ∧ quiet s s'.
Proof.
  rewrite fetch_proxies_from_source_eq. simpl.
  destruct (requests_get _ _ _ _) as [r|];
    [destruct (BeautifulSoup _ _)|]; eexists _, _; (split; [done|]);
    split; simpl; try done; by rewrite cycles_run_snoc, Nat.add_0_r.
Qed.

Lemma test_proxy_quiet (p : proxy) (s : state) :
  ∃ result s', test_proxy E p s = (Ok result, s') ∧ quiet s s'.
Proof.
  rewrite test_proxy_eq. simpl.
  destruct (requests_get _ _ _ _) as [r|]; [case_decide|];
    eexists _, _; (split; [done|]);
    split; simpl; try done; by rewrite cycles_run_snoc, Nat.add_0_r.
Qed.

Lemma fetch_all_quiet (srcs : list (string * string)) (s : state) :
  ∃ found s', fetch_all E srcs s = (Ok found, s') ∧ quiet s s'.
Proof.
  revert s. induction srcs as [|[url parser] srcs IH]; intros s; simpl.
  - by exists [], s.
  - unfold bind.
    destruct (fetch_proxies_from_source_quiet url parser s)
      as (found & s1 & -> & Hq1).
    destruct (IH s1) as (others & s2 & -> & Hq2).
    exists (found ++ others), s2. split; [done|]. by eapply quiet_trans.
Qed.

Lemma verify_all_quiet (ps : list proxy) (s : state) :
  ∃ kept s', verify_all E ps s = (Ok kept, s') ∧ quiet s s'.
Proof.
  revert s. induction ps as [|p ps IH]; intros s; simpl.
  - by exists [], s.
  - unfold bind.
    destruct (test_proxy_quiet p s) as (result & s1 & -> & Hq1).
    destruct (IH s1) as (others & s2 & -> & Hq2).
    eexists _, s2. split; [done|]. by eapply quiet_trans.
Qed.

(** A harvest always completes, and by itself changes neither the cache
    nor the number of cycles started. *)
Lemma harvest_quiet (s : state) :
  ∃ working_proxies s', harvest E s = (Ok working_proxies, s') ∧ quiet s s'.
Proof.
  unfold harvest, bind.
  destruct (fetch_all_quiet sources s) as (found & s1 & -> & Hq1).
  destruct (verify_all_quiet (dedupe found) s1) as (kept & s2 & -> & Hq2).
  exists kept, s2. split; [done|]. by eapply quiet_trans.
Qed.

Lemma harvest_and_publish_eq (s : state) :
  ∃ working_proxies s1,
    harvest E s = (Ok working_proxies, s1) ∧ quiet s s1
    ∧ harvest_and_publish E s = (Ok tt, published E working_proxies s1).
Proof.
  destruct (harvest_quiet s) as (w & s1 & Hh & Hq).
  exists w, s1. split; [done|]. split; [done|].
  unfold harvest_and_publish, bind. by rewrite Hh.
Qed.

Lemma update_proxy_cache_eq (s : state) :
  ∃ working_proxies s1,
    harvest E (started s) = (Ok working_proxies, s1)
    ∧ proxy_cache s1 = proxy_cache s
    ∧ cycles_run s1 = S (cycles_run s)
    ∧ update_proxy_cache E s = (Ok tt, published E working_proxies s1).
Proof.
  destruct (harvest_and_publish_eq (started s)) as (w & s1 & Hh & [Hc Hn] & Hp).
  exists w, s1. split; [done|]. split; [done|]. split.
  - rewrite Hn. unfold started. rewrite cycles_run_snoc.
    rewrite decide_True by done. destruct s; unfold cycles_run; simpl; lia.
  - unfold update_proxy_cache, bind. simpl. apply Hp.
Qed.

Lemma cycles_run_published (w : list proxy) (s1 : state) :
  cycles_run (published E w s1) = cycles_run s1.
Proof.
  unfold published. rewrite cycles_run_snoc, decide_False by done.
  unfold cycles_run; simpl; lia.
Qed.

End Effects.

(** * The claims *)

(** ** De-duplication *)

(** C2.  For every input sequence, the output of [dedupe] has no two
    entries with the same (address, port) pair; it is a subsequence of the
    input, so the retained entries are input entries, unchanged and in
    their input order; an occurrence of a pair that was already seen is
    dropped, so every retained entry stands at the first occurrence of its
    pair; the output for a prefix of the input is a prefix of the output;
    and every input entry has its identifier represented.  [dedupe] is a
    function of its argument alone: it reads and writes no state. *)
Theorem dedupe_unique_in_first_seen_order (l : list proxy) :
  NoDup (endpoint <$> dedupe l)
  ∧ dedupe l `sublist_of` l
  ∧ (∀ l1 p l2, l = l1 ++ p :: l2 → endpoint p ∈ endpoint <$> l1 →
       dedupe l = dedupe (l1 ++ l2))
  ∧ (∀ l1 l2, l = l1 ++ l2 → dedupe l1 `prefix_of` dedupe l)
  ∧ (∀ p, p ∈ l → ∃ q, q ∈ dedupe l ∧ identifier q = identifier p).
Proof.
  unfold dedupe. split_and!.
  - apply (NoDup_fmap_1 (λ e : string * string, e.1 +:+ ":" +:+ e.2)).
    rewrite <- list_fmap_compose. apply dedupe_loop_NoDup.
  - apply dedupe_loop_sublist.
  - intros l1 p l2 -> (q & Heq & Hq)%list_elem_of_fmap.
    rewrite !dedupe_loop_app, dedupe_loop_cons.
    rewrite decide_True; [done|].
    apply elem_of_union_r, elem_of_list_to_set, list_elem_of_fmap.
    exists q. split; [|done]. by apply endpoint_identifier.
  - intros l1 l2 ->. rewrite dedupe_loop_app. by eexists.
  - intros p Hp.
    destruct (dedupe_loop_covers l ∅ p Hp) as [Hin|Hq]; [|done].
    by apply not_elem_of_empty in Hin.
Qed.

(** C10.  The key of the de-duplication is the string "address:port", and
    the candidates ("a:b", "c") and ("a", "b:c") are different pairs with
    the same key "a:b:c": of the two, only the first is in the output. *)
Theorem dedupe_conflates_joined_keys :
  let l := [Fixtures.conflated_first; Fixtures.conflated_second] in
  endpoint Fixtures.conflated_first = ("a:b", "c")
  ∧ endpoint Fixtures.conflated_second = ("a", "b:c")
  ∧ endpoint Fixtures.conflated_first ≠ endpoint Fixtures.conflated_second
  ∧ identifier Fixtures.conflated_first = identifier Fixtures.conflated_second
  ∧ dedupe l = [Fixtures.conflated_first]
  ∧ ∃ (l' : list proxy) (p q : proxy),
      p ∈ l' ∧ q ∈ l' ∧ endpoint p ≠ endpoint q
      ∧ p ∈ dedupe l' ∧ q ∉ dedupe l'.
Proof.
  assert (Hd : dedupe [Fixtures.conflated_first; Fixtures.conflated_second]
               = [Fixtures.conflated_first]) by (vm_compute; reflexivity).
  split_and!; try done.
  exists [Fixtures.conflated_first; Fixtures.conflated_second],
    Fixtures.conflated_first, Fixtures.conflated_second.
  rewrite Hd. split_and!.
  - left.
  - right; left.
  - done.
  - left.
  - intros Hin%list_elem_of_singleton. discriminate Hin.
Qed.

(** ** Source fetcher *)

(** The slice [rows[1:20]] holds exactly the rows 1 to 19 of the table. *)
Lemma rows_slice_elem (t : table) (row : tr) :
  row ∈ take 19 (drop 1 t) ↔ ∃ i, (1 ≤ i ≤ 19)%nat ∧ t !! i = Some row.
Proof.
  rewrite list_elem_of_lookup. split.
  - intros (j & [Hj Hlt]%lookup_take_Some). rewrite lookup_drop in Hj.
    exists (1 + j)%nat. split; [lia|done].
  - intros (i & Hi & Hrow). exists (i - 1)%nat.
    apply lookup_take_Some. split; [|lia].
    rewrite lookup_drop. by replace (1 + (i - 1))%nat with i by lia.
Qed.

(** C5, as stated, fails: only the rows 1 to 19 of the table are read.  In
    a table of 21 rows that all have two cells, the first row and the
    twenty-first are not kept: the fetcher returns 19 candidates, and
    neither the candidate of the first row nor that of the last is among
    them. *)
Lemma rows_outside_the_cap_are_dropped :
  length Fixtures.long_table = 21%nat
  ∧ Forall (λ row, (2 ≤ length row)%nat) Fixtures.long_table
  ∧ Fixtures.long_table !! 0%nat = Some ["IP Address"; "Port"]
  ∧ Fixtures.long_table !! 20%nat = Some ["10.0.0.20"; "8080"]
  ∧ ∃ found,
      (fetch_proxies_from_source Fixtures.long_table_world
         "https://free-proxy-list.net/" "table" Fixtures.fresh_start).1
      = Ok found
      ∧ length found = 19%nat
      ∧ (row_proxy "https://free-proxy-list.net/" "IP Address" "Port"
         ∉ found)
      ∧ (row_proxy "https://free-proxy-list.net/" "10.0.0.20" "8080"
         ∉ found).
Proof.
  split_and!; try (vm_compute; reflexivity).
  - apply Forall_forall. intros row Hrow.
    apply list_elem_of_In in Hrow. vm_compute in Hrow.
    repeat (destruct Hrow as [<-|Hrow]; [vm_compute; lia|]). done.
  - eexists. split; [vm_compute; reflexivity|].
    split; [reflexivity|].
    split; intros Hin; apply list_elem_of_In in Hin; vm_compute in Hin;
      repeat (destruct Hin as [Hin|Hin]; [discriminate Hin|]); done.
Qed.

(** C5, amended.  Whatever the network and the parser do, the fetcher
    returns a list and raises nothing: the empty list when the request
    raises (network error, timeout), when the parser raises (malformed
    content) and when the page has no table.  When there is a table, the
    result lists, in row order, the candidates of the rows 1 to 19 of the
    first table that have at least two cells, and nothing else: among
    those rows a row with fewer than two cells is skipped and every other
    row is kept, while the first row and the rows from the twentieth on
    are never read. *)
Theorem fetch_proxies_from_source_tolerant (E : Env)
    (url parser_type : string) (s : state) :
  ∃ found s',
    fetch_proxies_from_source E url parser_type s = (Ok found, s')
    ∧ (requests_get E (tick s) url None = None → found = [])
    ∧ (∀ r, requests_get E (tick s) url None = Some r →
         BeautifulSoup E (text r) = None → found = [])
    ∧ (∀ r, requests_get E (tick s) url None = Some r →
         BeautifulSoup E (text r) = Some [] → found = [])
    ∧ (∀ r t others,
         requests_get E (tick s) url None = Some r →
         BeautifulSoup E (text r) = Some (t :: others) →
         parser_type = "table" →
         found = omap (candidate url) (take 19 (drop 1 t))
         ∧ length found
           = length (filter (λ row, (2 ≤ length row)%nat)
                       (take 19 (drop 1 t)))
         ∧ (∀ row, (length row < 2)%nat → candidate url row = None)
         ∧ (∀ i c0 c1 rest,
              (1 ≤ i ≤ 19)%nat → t !! i = Some (c0 :: c1 :: rest) →
              row_proxy url c0 c1 ∈ found)
         ∧ (∀ p, p ∈ found →
              ∃ i c0 c1 rest,
                (1 ≤ i ≤ 19)%nat ∧ t !! i = Some (c0 :: c1 :: rest)
                ∧ p = row_proxy url c0 c1)).
Proof.
  rewrite fetch_proxies_from_source_eq. simpl.
  destruct (requests_get E (tick s) url None) as [r|] eqn:Hget.
  2: { eexists _, _. split; [done|]. split_and!; try done. }
  destruct (BeautifulSoup E (text r)) as [sp|] eqn:Hsoup.
  2: { eexists _, _. split; [done|]. split_and!; try done.
       intros r' t others [= <-]. by rewrite Hsoup. }
  eexists _, _. split; [done|]. split; [done|]. split.
  { intros r' [= <-]. by rewrite Hsoup. }
  split.
  { intros r' [= <-]. rewrite Hsoup. intros [= ->].
    unfold parse_soup. by case_decide. }
  intros r' t others [= <-]. rewrite Hsoup. intros [= ->] ->.
  unfold parse_soup. rewrite decide_True by done.
  rewrite rows_loop_omap. unfold rows_slice. simpl. split; [done|].
  split; [apply omap_candidate_length|].
  split; [intros row; apply candidate_None|].
  split.
  - intros i c0 c1 rest Hi Hrow. apply list_elem_of_omap.
    exists (c0 :: c1 :: rest). split; [|done].
    apply rows_slice_elem. by exists i.
  - intros p (row & Hrow & Hcand)%list_elem_of_omap.
    destruct row as [|c0 [|c1 rest]]; simpl in Hcand; [done..|].
    injection Hcand as <-.
    apply rows_slice_elem in Hrow as (i & Hi & Hrow).
    by exists i, c0, c1, rest.
Qed.

(** C6.  With the tabular rule the fetcher looks at the first table only,
    leaves out its first row, reads no more than the 19 rows that follow,
    and builds each candidate from the text of the first two cells of its
    row (stripped of surrounding white space) as address and port; the
    protocol is "https" exactly when the url contains "ssl", and "http"
    otherwise. *)
Theorem fetch_tabular_rule (E : Env) (url : string) (s : state)
    (r : response) (t : table) (others : list table) :
  requests_get E (tick s) url None = Some r →
  BeautifulSoup E (text r) = Some (t :: others) →
  ∃ found s',
    fetch_proxies_from_source E url "table" s = (Ok found, s')
    ∧ found = omap (candidate url) (take 19 (drop 1 t))
    ∧ (length found ≤ 19)%nat
    ∧ (∀ p, p ∈ found →
         (∃ c0 c1 rest,
            c0 :: c1 :: rest ∈ take 19 (drop 1 t)
            ∧ ip p = PyStr.strip c0 ∧ port p = PyStr.strip c1)
         ∧ source p = url
         ∧ (protocol p = "https" ∨ protocol p = "http")
         ∧ (protocol p = "https"
            ↔ ∃ before after, url = before +:+ "ssl" +:+ after)).
Proof.
  intros Hget Hsoup.
  rewrite fetch_proxies_from_source_eq. simpl. rewrite Hget, Hsoup.
  eexists _, _. split; [done|].
  unfold parse_soup. rewrite decide_True by done.
  rewrite rows_loop_omap. simpl. split; [done|]. split.
  { rewrite omap_candidate_length.
    etrans; [apply length_filter|]. apply rows_slice_length. }
  intros p (row & Hrow & Hcand)%list_elem_of_omap.
  destruct row as [|c0 [|c1 rest]]; simpl in Hcand; [done..|].
  injection Hcand as <-. simpl. split; [by exists c0, c1, rest|].
  split; [done|].
  rewrite <- contains_spec.
  destruct (infer_protocol_cases url) as [[-> ->]|[-> ->]];
    (split; [auto|]); split; intros ?; (done || discriminate).
Qed.

(** ** Verifier *)

(** C7, as stated, fails: the verifier takes the status 200 alone for a
    success.  A probe that completes with 204, a successful status, makes
    [test_proxy] return [None]. *)
Lemma successful_probe_is_discarded :
  requests_get Fixtures.no_content_world 0 TEST_URL
    (Some (proxy_url Fixtures.scraped_candidate))
  = Some (mkResponse 204 "")
  ∧ successful_status 204
  ∧ (test_proxy Fixtures.no_content_world Fixtures.scraped_candidate
       Fixtures.fresh_start).1 = Ok None.
Proof.
  split_and!; [reflexivity| |vm_compute; reflexivity].
  unfold successful_status. lia.
Qed.

(** C7, amended.  [test_proxy] sends exactly one request, to the probe
    url and routed through the proxy "protocol://ip:port" of the
    candidate, and raises nothing.  It returns a proxy exactly when that
    request completes with the status 200; the proxy returned is the
    candidate with [working = True] and [last_checked] set to the clock
    read after the probe.  In every other case (the request raises, or
    completes with any other status, the other successful ones included)
    it returns [None]; no second request is sent and the cache is not
    touched. *)
Theorem test_proxy_accepts_status_200_only (E : Env) (p : proxy)
    (s : state) :
  let via := protocol p +:+ "://" +:+ ip p +:+ ":" +:+ port p in
  let probe := requests_get E (tick s) "https://httpbin.org/ip" (Some via) in
  ∃ result s',
    test_proxy E p s = (Ok result, s')
    ∧ sent s' = sent s ++ [("https://httpbin.org/ip", Some via)]
    ∧ proxy_cache s' = proxy_cache s
    ∧ (is_Some result ↔ ∃ r, probe = Some r ∧ status_code r = 200)
    ∧ (∀ q, result = Some q →
         working q = Some true
         ∧ last_checked q
           = Some (isoformat E (datetime_now E (S (tick s))))
         ∧ ip q = ip p ∧ port q = port p
         ∧ protocol q = protocol p ∧ source q = source p)
    ∧ (∀ r, probe = Some r → status_code r ≠ 200 → result = None)
    ∧ (probe = None → result = None).
Proof.
  cbv zeta. rewrite test_proxy_eq. unfold proxy_url, TEST_URL. simpl.
  destruct (requests_get E (tick s) "https://httpbin.org/ip" _)
    as [r|] eqn:Hget.
  - case_decide as Hst.
    + eexists _, _. split; [done|]. split_and!; try done.
      * split; [intros _; by exists r|by eexists].
      * by intros q [= <-].
      * by intros r' [= <-].
    + eexists _, _. split; [done|]. split_and!; try done.
      split; [by intros [? ?]|]. by intros (r' & [= <-] & ?).
  - eexists _, _. split; [done|]. split_and!; try done.
    split; [by intros [? ?]|]. by intros (r' & ? & ?).
Qed.

(** ** Read handlers *)

Section Handlers.

Context (E : Env).

(** The test of lines 143-144, evaluated. *)
Lemma cache_expired_eq (s : state) :
  cache_expired E s =
    match proxies (proxy_cache s) with
    | [] => (Ok true, s)
    | _ :: _ =>
        match last_updated (proxy_cache s) with
        | None => (Raised TypeError, ticked s)
        | Some lu =>
            (Ok (bool_decide
                   (datetime_now E (tick s) > lu + expires_in (proxy_cache s))),
             ticked s)
        end
    end.
Proof.
  unfold cache_expired, bind, get_cache, now. simpl.
  destruct (proxies (proxy_cache s)); [done|].
  by destruct (last_updated (proxy_cache s)).
Qed.

(** On an empty or stale cache the test holds and raises nothing. *)
Lemma cache_expired_true (s : state) :
  empty_or_stale E s →
  ∃ s0, cache_expired E s = (Ok true, s0)
        ∧ proxy_cache s0 = proxy_cache s ∧ stdout s0 = stdout s
        ∧ sent s0 = sent s.
Proof.
  intros Hstale. rewrite cache_expired_eq.
  destruct (proxies (proxy_cache s)) as [|p ps] eqn:Hps;
    [by exists s; split_and!|].
  destruct Hstale as [Hnil|(T & -> & Hlate)]; [congruence|].
  exists (ticked s). rewrite bool_decide_eq_true_2 by done. by split_and!.
Qed.

(** On a non-empty cache filled at [T] and still within its lifetime the
    test fails. *)
Lemma cache_expired_false (s : state) (T : Z) :
  proxies (proxy_cache s) ≠ [] →
  last_updated (proxy_cache s) = Some T →
  datetime_now E (tick s) <= T + expires_in (proxy_cache s) →
  cache_expired E s = (Ok false, ticked s).
Proof.
  intros Hne HT Hearly. rewrite cache_expired_eq, HT.
  destruct (proxies (proxy_cache s)); [done|].
  rewrite bool_decide_eq_false_2; [done|lia].
Qed.

Lemma cycles_run_same_stdout (s s' : state) :
  stdout s' = stdout s → cycles_run s' = cycles_run s.
Proof. unfold cycles_run. by intros ->. Qed.

End Handlers.

(** C1.  Read-through of [GET /proxies].  On a non-empty cache filled at
    [T], a call whose clock reading is at or before [T + ttl] answers with
    the current entries, leaves the cache as it is and runs no cycle (it
    prints nothing and sends no request).  On an empty cache, or when the
    clock reading is after [T + ttl], the call runs exactly one cycle and
    answers from the cache that the cycle has written: its entries are the
    harvested proxies and its [last_updated] is the clock read at the end
    of the cycle. *)
Theorem get_proxies_read_through (E : Env) (s : state) :
  (∀ T,
     proxies (proxy_cache s) ≠ [] →
     last_updated (proxy_cache s) = Some T →
     datetime_now E (tick s) <= T + expires_in (proxy_cache s) →
     ∃ s',
       get_proxies E s
       = (Ok (jsonify (ProxiesBody (length (proxies (proxy_cache s)))
                                   (isoformat E T)
                                   (proxies (proxy_cache s)))), s')
       ∧ proxy_cache s' = proxy_cache s
       ∧ cycles_run s' = cycles_run s
       ∧ stdout s' = stdout s
       ∧ sent s' = sent s)
  ∧ (empty_or_stale E s →
     ∃ working_proxies t' s0 s1 s',
       get_proxies E s
       = (Ok (jsonify (ProxiesBody (length working_proxies)
                                   (isoformat E t') working_proxies)), s')
       ∧ cycles_run s' = S (cycles_run s)
       ∧ proxy_cache s0 = proxy_cache s
       ∧ harvest E (started s0) = (Ok working_proxies, s1)
       ∧ t' = datetime_now E (tick s1)
       ∧ proxy_cache s'
         = mkCache working_proxies (Some t') (expires_in (proxy_cache s))).
Proof.
  split.
  - intros T Hne HT Hearly. exists (ticked s).
    unfold get_proxies, bind. rewrite (cache_expired_false E s T) by done.
    unfold respond_proxies, bind, last_updated_iso. simpl. by rewrite HT.
  - intros Hstale.
    destruct (cache_expired_true E s Hstale) as (s0 & Hcheck & Hc0 & Ho0 & _).
    destruct (update_proxy_cache_eq E s0) as (w & s1 & Hh & Hc1 & Hn1 & Hup).
    exists w, (datetime_now E (tick s1)), s0, s1, (published E w s1).
    unfold get_proxies, bind. rewrite Hcheck, Hup. simpl.
    split_and!; try done.
    + rewrite cycles_run_published, Hn1.
      f_equal. by apply cycles_run_same_stdout.
    + by rewrite Hc1, Hc0.
Qed.

Lemma in_filtered (proto : string) (ps : list proxy) (p : proxy) :
  p ∈ filter (λ q, protocol q = proto) ps ↔ protocol p = proto ∧ p ∈ ps.
Proof. apply (list_elem_of_filter (λ q, protocol q = proto)). Qed.

(** C9.  [GET /proxies/<protocol>].  A protocol other than "http" and
    "https" is answered with status 400 and an error body, and the state
    is left exactly as it was: no cycle, same cache.  For "http" and
    "https" (on a cache that is empty or has been filled before) the
    answer lists exactly the entries of the cache, as it stands after the
    staleness test, whose protocol is the requested one, and [count] is
    their number. *)
Theorem get_proxies_by_protocol_filter (E : Env) (proto : string) (s : state) :
  (proto ≠ "http" → proto ≠ "https" →
     ∃ msg, get_proxies_by_protocol E proto s = (Ok (ErrorBody msg, 400), s))
  ∧ (proto = "http" ∨ proto = "https" →
     proxies (proxy_cache s) = [] ∨ is_Some (last_updated (proxy_cache s)) →
     ∃ filtered s',
       get_proxies_by_protocol E proto s
       = (Ok (ByProtocolBody (length filtered) proto filtered, 200), s')
       ∧ filtered = filter (λ p, protocol p = proto) (proxies (proxy_cache s'))
       ∧ (∀ p, p ∈ filtered
               ↔ protocol p = proto ∧ p ∈ proxies (proxy_cache s'))
       ∧ (¬ empty_or_stale E s →
            proxy_cache s' = proxy_cache s ∧ cycles_run s' = cycles_run s)
       ∧ (empty_or_stale E s → cycles_run s' = S (cycles_run s))).
Proof.
  split.
  - intros Hhttp Hhttps. eexists.
    unfold get_proxies_by_protocol. rewrite decide_False; [done|].
    by intros [?|?].
  - intros Hproto Hwf.
    unfold get_proxies_by_protocol. rewrite decide_True by done.
    unfold bind. rewrite cache_expired_eq.
    destruct (proxies (proxy_cache s)) as [|p0 ps] eqn:Hps.
    + destruct (update_proxy_cache_eq E s) as (w & s1 & Hh & Hc1 & Hn1 & Hup).
      rewrite Hup. simpl. eexists _, _. split; [done|]. split; [done|].
      split; [apply in_filtered|]. split.
      * intros []. by left.
      * intros _. by rewrite cycles_run_published.
    + destruct Hwf as [?|[lu Hlu]]; [done|]. rewrite Hlu.
      case_bool_decide as Hlate.
      * destruct (update_proxy_cache_eq E (ticked s))
          as (w & s1 & Hh & Hc1 & Hn1 & Hup).
        rewrite Hup. simpl. eexists _, _. split; [done|]. split; [done|].
        split; [apply in_filtered|]. split.
        -- intros []. right. by exists lu.
        -- intros _. by rewrite cycles_run_published.
      * simpl. eexists _, _. split; [done|]. split; [done|].
        split; [apply in_filtered|]. split; [done|].
        intros [Hnil|(T & HT & Hgt)]; [by rewrite Hps in Hnil|].
        rewrite Hlu in HT. injection HT as <-. done.
Qed.

(** [GET /stats] on a non-empty cache never starts a cycle, whatever the
    clock says: line 174 tests emptiness only. *)
Lemma get_stats_nonempty_runs_no_cycle (E : Env) (s : state) :
  proxies (proxy_cache s) ≠ [] →
  (get_stats E s).2 = s.
Proof.
  intros Hne. unfold get_stats, bind, get_cache. simpl.
  destruct (proxies (proxy_cache s)) as [|p ps] eqn:Hps; [done|]. simpl.
  assert (Hsame : ∀ l acc, (count_sources l acc s).2 = s).
  { induction l as [|q l IH]; intros acc; simpl; [done|].
    destruct (PyStr.split "/" (source q) !! 2%nat); [apply IH|done]. }
  specialize (Hsame (proxies (proxy_cache s)) ∅).
  destruct (count_sources (proxies (proxy_cache s)) ∅ s) as [[srcs|e] s2];
    simpl in Hsame; subst s2; [|done].
  unfold last_updated_iso. by destruct (last_updated (proxy_cache s)).
Qed.

(** C3.  The claim fails on the code: [get_stats] tests only whether the
    cache is empty.  With one entry cached at the instant 0 and the clock
    31 minutes later the cache is stale; [get_proxies] runs a cycle there,
    [get_stats] runs none, leaves the cache as it is and counts the stale
    entry. *)
Theorem get_stats_skips_staleness_check :
  let E := Fixtures.late_world in
  let s := Fixtures.filled_at_zero in
  empty_or_stale E s
  ∧ cycles_run (get_proxies E s).2 = S (cycles_run s)
  ∧ cycles_run (get_stats E s).2 = cycles_run s
  ∧ proxy_cache (get_stats E s).2 = proxy_cache s
  ∧ (get_stats E s).1
    = Ok (StatsBody 1 1 0 {[ "free-proxy-list.net" := 1 ]} "T0", 200).
Proof.
  cbv zeta. split_and!.
  - right. exists 0. split; [done|]. vm_compute. done.
  - vm_compute. done.
  - by rewrite get_stats_nonempty_runs_no_cycle.
  - by rewrite get_stats_nonempty_runs_no_cycle.
  - vm_compute. done.
Qed.

(** ** Where the fields of a served entry come from *)

Lemma parse_soup_elem (url parser_type : string) (sp : soup) (p : proxy) :
  p ∈ parse_soup url parser_type sp →
  ∃ t others c0 c1 rest,
    sp = t :: others ∧ parser_type = "table"
    ∧ c0 :: c1 :: rest ∈ rows_slice t ∧ p = row_proxy url c0 c1.
Proof.
  unfold parse_soup. case_decide as Hpt; [|by intros ?%elem_of_nil].
  destruct sp as [|t others]; [by intros ?%elem_of_nil|].
  rewrite rows_loop_omap. simpl.
  intros (row & Hrow & Hcand)%list_elem_of_omap.
  destruct row as [|c0 [|c1 rest]]; simpl in Hcand; [done..|].
  injection Hcand as <-. by exists t, others, c0, c1, rest.
Qed.

Section Provenance.

Context (E : Env).

Lemma fetch_proxies_from_source_elem (url parser_type : string)
    (s s' : state) (found : list proxy) (p : proxy) :
  fetch_proxies_from_source E url parser_type s = (Ok found, s') →
  p ∈ found →
  ∃ r t others c0 c1 rest,
    requests_get E (tick s) url None = Some r
    ∧ BeautifulSoup E (text r) = Some (t :: others)
    ∧ c0 :: c1 :: rest ∈ rows_slice t
    ∧ p = row_proxy url c0 c1.
Proof.
  rewrite fetch_proxies_from_source_eq. simpl.
  destruct (requests_get E (tick s) url None) as [r|];
    [|by intros [= <- _] ?%elem_of_nil].
  destruct (BeautifulSoup E (text r)) as [sp|] eqn:Hsoup;
    [|by intros [= <- _] ?%elem_of_nil].
  intros [= <- _] (t & others & c0 & c1 & rest & -> & _ & Hrow & ->)
    %parse_soup_elem.
  by exists r, t, others, c0, c1, rest.
Qed.

End Provenance.

(** C8, as stated, fails: the port is never converted to an integer.  In
    the world where one source lists the row ("1.2.3.4", "8080"), the
    candidate built by the fetcher and the entry served by [GET /proxies]
    both carry the string "8080" under the key "port", not the integer
    8080. *)
Lemma port_is_served_as_text :
  (fetch_proxies_from_source Fixtures.one_row_world
     "https://free-proxy-list.net/" "table" Fixtures.fresh_start).1
  = Ok [Fixtures.scraped_candidate]
  ∧ dict_get (proxy_dict Fixtures.scraped_candidate) "port"
    = Some (VStr "8080")
  ∧ ¬ port_is_valid_integer Fixtures.scraped_candidate
  ∧ (get_proxies Fixtures.one_row_world Fixtures.fresh_start).1
    = Ok (ProxiesBody 1 "T6" [Fixtures.served_entry], 200)
  ∧ dict_get (proxy_dict Fixtures.served_entry) "port" = Some (VStr "8080")
  ∧ dict_get (proxy_dict Fixtures.served_entry) "port" ≠ Some (VInt 8080)
  ∧ ¬ port_is_valid_integer Fixtures.served_entry.
Proof.
  split_and!; try (vm_compute; reflexivity).
  - intros (n & Hn & _). vm_compute in Hn. discriminate Hn.
  - intros Hn. vm_compute in Hn. discriminate Hn.
  - intros (n & Hn & _). vm_compute in Hn. discriminate Hn.
Qed.

(** ** Concurrent requests *)

Lemma count_pcs_insert (f : pc → bool) (l : list pc) (i : nat) (p q : pc) :
  l !! i = Some p →
  (count_pcs f (<[i:=q]> l) + b2n (f p) = count_pcs f l + b2n (f q))%nat.
Proof.
  unfold count_pcs. revert i. induction l as [|a l IH]; intros i; [done|].
  destruct i as [|i]; simpl.
  - intros [= ->]. rewrite !filter_cons.
    destruct (f p), (f q); simpl; repeat case_decide; simpl; try done; lia.
  - intros Hi. specialize (IH i Hi). rewrite !filter_cons.
    case_decide; simpl; lia.
Qed.

Lemma count_pcs_replicate (f : pc → bool) (n : nat) (p : pc) :
  count_pcs f (replicate n p) = (n * b2n (f p))%nat.
Proof.
  unfold count_pcs. induction n as [|n IH]; [done|].
  simpl. rewrite filter_cons.
  destruct (decide (f p = true)) as [Hf|Hf]; simpl; rewrite IH.
  - rewrite Hf. simpl. lia.
  - destruct (f p); [done|]. simpl. lia.
Qed.

Section ThreadFacts.

Context (E : Env).

(** One step of one thread: a cycle is counted exactly when the thread
    enters [update_proxy_cache]; a thread that may no longer start a cycle
    never may again; and a thread is in a cycle only after entering it. *)
Lemma step_thread_effect (p : pc) (s : state) :
  (cycles_run (step_thread E p s).2
   = cycles_run s + b2n (starts_cycle p))%nat
  ∧ (b2n (may_start (step_thread E p s).1) + b2n (starts_cycle p)
     ≤ b2n (may_start p))%nat
  ∧ (b2n (in_cycle (step_thread E p s).1)
     ≤ b2n (in_cycle p) + b2n (starts_cycle p))%nat.
Proof.
  destruct p as [| | | |r]; simpl.
  - rewrite cache_expired_eq.
    destruct (proxies (proxy_cache s)); [simpl; lia|].
    destruct (last_updated (proxy_cache s));
      [|unfold cycles_run; simpl; lia].
    case_bool_decide; unfold cycles_run; simpl; lia.
  - change (mkState (proxy_cache s) (tick s) (stdout s ++ [EvCycleStart])
                    (sent s)) with (started s).
    unfold started. rewrite cycles_run_snoc, decide_True by done.
    destruct s; unfold cycles_run; simpl; lia.
  - destruct (harvest_and_publish_eq E s) as (w & s1 & _ & [_ Hn] & ->).
    simpl. rewrite cycles_run_published, Hn. lia.
  - unfold respond_proxies, bind, get_cache, last_updated_iso.
    destruct (last_updated (proxy_cache s)); simpl; lia.
  - lia.
Qed.

Lemma step_index_out (c : config) (i : nat) :
  threads c !! i = None → step E c i = c.
Proof. unfold step. by intros ->. Qed.

Lemma step_index_in (c : config) (i : nat) (p : pc) :
  threads c !! i = Some p →
  step E c i = mkConfig (step_thread E p (shared c)).2
                        (<[i := (step_thread E p (shared c)).1]> (threads c)).
Proof.
  unfold step. intros ->. by destruct (step_thread E p (shared c)).
Qed.

Lemma step_bounds (s0 : state) (n : nat) (c : config) (i : nat) :
  bounds_inv s0 n c → bounds_inv s0 n (step E c i).
Proof.
  intros (Hlow & Hhigh & Hfly).
  destruct (threads c !! i) as [p|] eqn:Hi;
    [|by rewrite step_index_out].
  rewrite (step_index_in c i p Hi).
  destruct (step_thread_effect p (shared c)) as (Hn & Hmay & Hin).
  pose proof (count_pcs_insert may_start _ _ _
                (step_thread E p (shared c)).1 Hi) as Hc1.
  pose proof (count_pcs_insert in_cycle _ _ _
                (step_thread E p (shared c)).1 Hi) as Hc2.
  unfold bounds_inv, in_flight in *. simpl. lia.
Qed.

Lemma step_cycles_mono (c : config) (i : nat) :
  (cycles_run (shared c) ≤ cycles_run (shared (step E c i)))%nat.
Proof.
  destruct (threads c !! i) as [p|] eqn:Hi;
    [|by rewrite step_index_out].
  rewrite (step_index_in c i p Hi). simpl.
  destruct (step_thread_effect p (shared c)) as (-> & _). lia.
Qed.

Lemma step_progress (s0 : state) (n : nat) (c : config) (i : nat) :
  empty_or_stale E s0 →
  progress_inv s0 n c → progress_inv s0 n (step E c i).
Proof.
  intros Hstale Hinv.
  destruct (threads c !! i) as [p|] eqn:Hi;
    [|by rewrite step_index_out].
  pose proof (step_cycles_mono c i) as Hmono.
  rewrite (step_index_in c i p Hi) in *. simpl in Hmono.
  destruct Hinv as [[Hthreads Hshared]|[Hdone|[Hlow [j Hj]]]].
  - right; right. simpl. split; [rewrite <- Hshared; exact Hmono|].
    exists i. rewrite Hthreads in Hi.
    apply lookup_replicate in Hi as [-> Hlt].
    destruct (cache_expired_true E s0 Hstale) as (s1 & Hcheck & _).
    simpl. rewrite Hshared, Hcheck. simpl.
    apply list_lookup_insert_eq. by rewrite Hthreads, length_replicate.
  - right; left. simpl. lia.
  - destruct (decide (i = j)) as [->|Hne].
    + right; left. simpl.
      rewrite Hj in Hi. injection Hi as <-.
      destruct (step_thread_effect AtUpdate (shared c)) as (-> & _).
      simpl. lia.
    + right; right. simpl. split; [lia|].
      exists j. by rewrite list_lookup_insert_ne.
Qed.

Lemma run_bounds (s0 : state) (n : nat) (schedule : list nat) (c : config) :
  bounds_inv s0 n c → bounds_inv s0 n (run E schedule c).
Proof.
  revert c. induction schedule as [|i schedule IH]; intros c Hc; [done|].
  apply IH, step_bounds, Hc.
Qed.

Lemma run_progress (s0 : state) (n : nat) (schedule : list nat) (c : config) :
  empty_or_stale E s0 →
  progress_inv s0 n c → progress_inv s0 n (run E schedule c).
Proof.
  intros Hstale. revert c.
  induction schedule as [|i schedule IH]; intros c Hc; [done|].
  by apply IH, step_progress.
Qed.

End ThreadFacts.

Lemma spawn_bounds (n : nat) (s : state) : bounds_inv s n (spawn n s).
Proof.
  unfold bounds_inv, in_flight, spawn. simpl.
  rewrite !count_pcs_replicate. simpl. lia.
Qed.

Lemma all_finished_lookup (c : config) (i : nat) (p : pc) :
  all_finished c → threads c !! i = Some p → is_finished p = true.
Proof.
  unfold all_finished. rewrite forallb_forall. intros Hall Hi.
  apply Hall, list_elem_of_In, list_elem_of_lookup. by exists i.
Qed.

(** A request that runs alone goes through the steps of [get_proxies]. *)
Lemma single_request_is_get_proxies (E : Env) (s : state) :
  run E [0; 0; 0; 0]%nat (spawn 1 s)
  = mkConfig (get_proxies E s).2 [Finished (get_proxies E s).1].
Proof.
  unfold get_proxies, bind, run, spawn, step. simpl.
  destruct (cache_expired E s) as [[[|]|e] s0]; simpl; [| |done].
  - unfold update_proxy_cache, bind. simpl.
    destruct (harvest_and_publish_eq E (started s0)) as (w & s1 & _ & _ & Hp).
    unfold started in Hp. rewrite Hp. simpl.
    by destruct (respond_proxies E (published E w s1)).
  - by destruct (respond_proxies E s0).
Qed.

(** C4, as stated, fails: nothing in the program keeps a second request
    from starting a cycle.  Two requests arrive on the empty cache of a
    fresh process.  When both test the cache before either starts its
    cycle, two cycles are in flight together, and two cycles have run when
    both have answered.  Even served one after the other, two requests run
    two cycles when the first cycle finds no working proxy. *)
Lemma two_requests_run_two_cycles :
  empty_or_stale Fixtures.one_row_world Fixtures.fresh_start
  ∧ in_flight (run Fixtures.one_row_world Fixtures.both_test_first
                   (spawn 2 Fixtures.fresh_start)) = 2%nat
  ∧ all_finished (run Fixtures.one_row_world Fixtures.both_to_the_end
                      (spawn 2 Fixtures.fresh_start))
  ∧ cycles_run (shared (run Fixtures.one_row_world Fixtures.both_to_the_end
                            (spawn 2 Fixtures.fresh_start))) = 2%nat
  ∧ all_finished (run Fixtures.late_world Fixtures.one_after_the_other
                      (spawn 2 Fixtures.fresh_start))
  ∧ cycles_run (shared (run Fixtures.late_world Fixtures.one_after_the_other
                            (spawn 2 Fixtures.fresh_start))) = 2%nat.
Proof.
  split_and!; try (vm_compute; reflexivity).
  by left.
Qed.

(** C4, amended.  When [n] read-through requests arrive together in a
    state [s], then under every schedule each request starts at most one
    cycle: at most [n] cycles are run in total and at most [n] are in
    flight at any time, the cycles in flight being among those started
    since [s].  If the cache was empty or stale in [s] and there is at
    least one request, at least one cycle has run once all requests have
    answered. *)
Theorem concurrent_reads_cycle_bounds (E : Env) (n : nat) (s : state)
    (schedule : list nat) :
  (cycles_run (shared (run E schedule (spawn n s))) ≤ cycles_run s + n)%nat
  ∧ (in_flight (run E schedule (spawn n s)) + cycles_run s
     ≤ cycles_run (shared (run E schedule (spawn n s))))%nat
  ∧ (in_flight (run E schedule (spawn n s)) ≤ n)%nat
  ∧ (empty_or_stale E s → (0 < n)%nat →
     all_finished (run E schedule (spawn n s)) →
     (cycles_run s < cycles_run (shared (run E schedule (spawn n s))))%nat).
Proof.
  destruct (run_bounds E s n schedule (spawn n s) (spawn_bounds n s))
    as (Hlow & Hhigh & Hfly).
  split_and!; [lia..|].
  intros Hstale Hn Hall.
  assert (Hstart : progress_inv s n (spawn n s)) by (by left).
  apply (run_progress E s n schedule _ Hstale) in Hstart.
  destruct Hstart as [[Hthreads _]|[Hdone|[_ [i Hi]]]]; [|done|].
  - assert (Hi : threads (run E schedule (spawn n s)) !! 0%nat = Some AtCheck).
    { rewrite Hthreads. by apply lookup_replicate. }
    by apply (all_finished_lookup _ _ _ Hall) in Hi.
  - by apply (all_finished_lookup _ _ _ Hall) in Hi.
Qed.

(** ** Instances of the theorems at the concrete worlds *)

Lemma concurrent_reads_cycle_bounds_witness :
  (cycles_run Fixtures.fresh_start
   < cycles_run (shared (run Fixtures.one_row_world Fixtures.both_to_the_end
                             (spawn 2 Fixtures.fresh_start))))%nat.
Proof.
  apply (concurrent_reads_cycle_bounds Fixtures.one_row_world 2
           Fixtures.fresh_start Fixtures.both_to_the_end).
  - left. reflexivity.
  - lia.
  - vm_compute. reflexivity.
Defined.

Lemma get_proxies_read_through_witness :
  (∃ s',
     get_proxies Fixtures.early_world Fixtures.filled_at_zero
     = (Ok (jsonify (ProxiesBody 1 "T0" [Fixtures.served_entry])), s')
     ∧ proxy_cache s' = proxy_cache Fixtures.filled_at_zero
     ∧ cycles_run s' = cycles_run Fixtures.filled_at_zero
     ∧ stdout s' = stdout Fixtures.filled_at_zero
     ∧ sent s' = sent Fixtures.filled_at_zero)
  ∧ (∃ working_proxies t' s0 s1 s',
       get_proxies Fixtures.late_world Fixtures.filled_at_zero
       = (Ok (jsonify (ProxiesBody (length working_proxies)
                         (isoformat Fixtures.late_world t')
                         working_proxies)), s')
       ∧ cycles_run s' = S (cycles_run Fixtures.filled_at_zero)
       ∧ proxy_cache s0 = proxy_cache Fixtures.filled_at_zero
       ∧ harvest Fixtures.late_world (started s0) = (Ok working_proxies, s1)
       ∧ t' = datetime_now Fixtures.late_world (tick s1)
       ∧ proxy_cache s'
         = mkCache working_proxies (Some t')
                   (expires_in (proxy_cache Fixtures.filled_at_zero))).
Proof.
  split.
  - apply (proj1 (get_proxies_read_through Fixtures.early_world
                    Fixtures.filled_at_zero) 0).
    + discriminate.
    + reflexivity.
    + vm_compute. discriminate.
  - apply (proj2 (get_proxies_read_through Fixtures.late_world
                    Fixtures.filled_at_zero)).
    right. exists 0. split; [reflexivity|]. vm_compute. reflexivity.
Defined.

Lemma get_proxies_by_protocol_filter_witness :
  (∃ msg,
     get_proxies_by_protocol Fixtures.early_world "ftp" Fixtures.mixed_cache
     = (Ok (ErrorBody msg, 400), Fixtures.mixed_cache))
  ∧ (∃ filtered s',
       get_proxies_by_protocol Fixtures.early_world "https"
         Fixtures.mixed_cache
       = (Ok (ByProtocolBody (length filtered) "https" filtered, 200), s')
       ∧ filtered
         = filter (λ p, protocol p = "https") (proxies (proxy_cache s'))
       ∧ (∀ p, p ∈ filtered
               ↔ protocol p = "https" ∧ p ∈ proxies (proxy_cache s'))
       ∧ (¬ empty_or_stale Fixtures.early_world Fixtures.mixed_cache →
            proxy_cache s' = proxy_cache Fixtures.mixed_cache
            ∧ cycles_run s' = cycles_run Fixtures.mixed_cache)
       ∧ (empty_or_stale Fixtures.early_world Fixtures.mixed_cache →
            cycles_run s' = S (cycles_run Fixtures.mixed_cache))).
Proof.
  split.
  - apply (proj1 (get_proxies_by_protocol_filter Fixtures.early_world "ftp"
                    Fixtures.mixed_cache)); discriminate.
  - apply (proj2 (get_proxies_by_protocol_filter Fixtures.early_world "https"
                    Fixtures.mixed_cache)).
    + right. reflexivity.
    + right. exists 0. reflexivity.
Defined.

Lemma fetch_tabular_rule_witness :
  ∃ found s',
    fetch_proxies_from_source Fixtures.one_row_world
      "https://free-proxy-list.net/" "table" Fixtures.fresh_start
    = (Ok found, s')
    ∧ found = [Fixtures.scraped_candidate].
Proof.
  destruct (fetch_tabular_rule Fixtures.one_row_world
              "https://free-proxy-list.net/" Fixtures.fresh_start
              (mkResponse 200 "<table>")
              [["IP Address"; "Port"]; ["1.2.3.4"; "8080"]] []
              eq_refl eq_refl)
    as (found & s' & Hfetch & Hfound & _).
  exists found, s'. split; [exact Hfetch|].
  rewrite Hfound. vm_compute. reflexivity.
Defined.

(** ** The examples of the specification, evaluated *)

(** One source lists ("1.2.3.4", "8080"), the other three fail, the probe
    succeeds: the cycle is not aborted and the entry is served. *)
Example end_to_end_one_row :
  (get_proxies Fixtures.one_row_world Fixtures.fresh_start).1
  = Ok (ProxiesBody 1 "T6" [Fixtures.served_entry], 200)
  ∧ cycles_run (get_proxies Fixtures.one_row_world Fixtures.fresh_start).2
    = 1%nat.
Proof. split; vm_compute; reflexivity. Qed.

(** Two http and three https entries: [GET /proxies/https] lists the
    three, [GET /proxies/ftp] is refused. *)
Example protocol_filter_https :
  (get_proxies_by_protocol Fixtures.early_world "https" Fixtures.mixed_cache).1
  = Ok (ByProtocolBody 3 "https"
          [Fixtures.https_entry "s1"; Fixtures.https_entry "s2";
           Fixtures.https_entry "s3"], 200)
  ∧ get_proxies_by_protocol Fixtures.early_world "ftp" Fixtures.mixed_cache
    = (Ok (ErrorBody invalid_protocol_message, 400), Fixtures.mixed_cache).
Proof. split; vm_compute; reflexivity. Qed.

(** ** Further properties of the harvest cycle *)

(** X2.  A cycle always publishes its result: after [update_proxy_cache]
    the entries are the harvested proxies, [last_updated] is set and the
    lifetime is unchanged, also when nothing was verified.  In the world
    without network the one cached entry is replaced by the empty list. *)
Theorem update_proxy_cache_always_publishes (E : Env) (s : state) :
  (∃ working_proxies s1 s',
     update_proxy_cache E s = (Ok tt, s')
     ∧ harvest E (started s) = (Ok working_proxies, s1)
     ∧ proxy_cache s'
       = mkCache working_proxies (Some (datetime_now E (tick s1)))
                 (expires_in (proxy_cache s))
     ∧ cycles_run s' = S (cycles_run s))
  ∧ proxies (proxy_cache (update_proxy_cache Fixtures.late_world
                            Fixtures.filled_at_zero).2) = [].
Proof.
  split; [|vm_compute; reflexivity].
  destruct (update_proxy_cache_eq E s) as (w & s1 & Hh & Hc & Hn & Hup).
  exists w, s1, (published E w s1). split_and!; try done.
  - simpl. by rewrite Hc.
  - by rewrite cycles_run_published.
Qed.

(** * Further properties of the program *)

(** ** De-duplication, continued *)

Lemma dedupe_loop_idemp (l : list proxy) (seen : gset string) :
  dedupe_loop (dedupe_loop l seen []) seen [] = dedupe_loop l seen [].
Proof.
  revert seen. induction l as [|p l IH]; intros seen; [done|].
  rewrite dedupe_loop_cons. case_decide as Hin; [apply IH|].
  rewrite dedupe_loop_cons, decide_False by done. by rewrite IH.
Qed.

Lemma dedupe_loop_fresh (l : list proxy) (seen : gset string) :
  NoDup (identifier <$> l) →
  (∀ p, p ∈ l → identifier p ∉ seen) →
  dedupe_loop l seen [] = l.
Proof.
  revert seen. induction l as [|p l IH]; intros seen Hnd Hnew; [done|].
  rewrite fmap_cons in Hnd. apply NoDup_cons in Hnd as [Hp Hnd].
  rewrite dedupe_loop_cons, decide_False by (apply Hnew; left).
  f_equal. apply IH; [done|]. intros q Hq.
  apply not_elem_of_union. split; [|apply Hnew; by right].
  intros Heq%elem_of_singleton. apply Hp, list_elem_of_fmap. by exists q.
Qed.

Lemma dedupe_NoDup_endpoint (l : list proxy) : NoDup (endpoint <$> dedupe l).
Proof.
  apply (NoDup_fmap_1 (λ e : string * string, e.1 +:+ ":" +:+ e.2)).
  rewrite <- list_fmap_compose. apply dedupe_loop_NoDup.
Qed.

(** X3.  De-duplicating twice changes nothing more; a list is left as it
    is exactly when its "address:port" keys are pairwise different; and
    the output is never longer than the input. *)
Theorem dedupe_idempotent (l : list proxy) :
  dedupe (dedupe l) = dedupe l
  ∧ (dedupe l = l ↔ NoDup (identifier <$> l))
  ∧ (length (dedupe l) ≤ length l)%nat.
Proof.
  unfold dedupe. split_and!.
  - apply dedupe_loop_idemp.
  - split.
    + intros <-. apply dedupe_loop_NoDup.
    + intros Hnd. apply dedupe_loop_fresh; [done|]. intros p _.
      apply not_elem_of_empty.
  - apply sublist_length, dedupe_loop_sublist.
Qed.

(** ** White space around the scraped fields *)

Lemma lstrip_first (s : string) (c : ascii) :
  first_char (PyStr.lstrip s) = Some c → PyStr.isspace c = false.
Proof.
  induction s as [|a s IH]; simpl; [done|].
  destruct (PyStr.isspace a) eqn:Ha; [done|].
  simpl. by intros [= <-].
Qed.

Lemma lstrip_last (s : string) (c : ascii) :
  last_char (PyStr.lstrip s) = Some c → last_char s = Some c.
Proof.
  induction s as [|a s IH]; simpl; [done|].
  destruct (PyStr.isspace a); [|done].
  intros Hc. specialize (IH Hc). by destruct s.
Qed.

Lemma rstrip_last (s : string) (c : ascii) :
  last_char (PyStr.rstrip s) = Some c → PyStr.isspace c = false.
Proof.
  induction s as [|a s IH]; simpl; [done|].
  destruct (PyStr.rstrip s) as [|b r].
  - destruct (PyStr.isspace a) eqn:Ha; simpl; [done|]. by intros [= <-].
  - simpl. exact IH.
Qed.

Lemma lstrip_id (s : string) :
  (∀ c, first_char s = Some c → PyStr.isspace c = false) →
  PyStr.lstrip s = s.
Proof.
  destruct s as [|a s]; simpl; [done|].
  intros H. by rewrite (H a eq_refl).
Qed.

Lemma rstrip_id (s : string) :
  (∀ c, last_char s = Some c → PyStr.isspace c = false) →
  PyStr.rstrip s = s.
Proof.
  induction s as [|a s IH]; [done|].
  intros H. simpl. destruct s as [|b r].
  - simpl. by rewrite (H a eq_refl).
  - rewrite IH; [done|]. intros c Hc. by apply H.
Qed.

Lemma strip_trimmed (s : string) : trimmed (PyStr.strip s).
Proof.
  intros c [Hc|Hc].
  - by apply lstrip_first in Hc.
  - by apply lstrip_last, rstrip_last in Hc.
Qed.

Lemma trimmed_strip (s : string) : trimmed s → PyStr.strip s = s.
Proof.
  intros H. unfold PyStr.strip.
  rewrite rstrip_id by (intros c Hc; apply H; by right).
  apply lstrip_id. intros c Hc. apply H. by left.
Qed.

(** X4.  The address and the port of every candidate built by the
    fetcher neither start nor end with white space, and stripping them
    again changes nothing. *)
Theorem fetched_fields_are_trimmed (E : Env) (url parser_type : string)
    (s s' : state) (found : list proxy) (p : proxy) :
  fetch_proxies_from_source E url parser_type s = (Ok found, s') →
  p ∈ found →
  trimmed (ip p) ∧ trimmed (port p)
  ∧ PyStr.strip (ip p) = ip p ∧ PyStr.strip (port p) = port p.
Proof.
  intros Hfetch Hp.
  destruct (fetch_proxies_from_source_elem _ _ _ _ _ _ _ Hfetch Hp)
    as (r & t & others & c0 & c1 & rest & _ & _ & _ & ->).
  simpl. split_and!; auto using strip_trimmed, trimmed_strip.
Qed.

Lemma fetched_fields_are_trimmed_witness :
  trimmed (ip Fixtures.scraped_candidate)
  ∧ trimmed (port Fixtures.scraped_candidate)
  ∧ PyStr.strip (ip Fixtures.scraped_candidate)
    = ip Fixtures.scraped_candidate
  ∧ PyStr.strip (port Fixtures.scraped_candidate)
    = port Fixtures.scraped_candidate.
Proof.
  apply (fetched_fields_are_trimmed Fixtures.one_row_world
           "https://free-proxy-list.net/" "table" Fixtures.fresh_start
           (mkState initial_cache 1 []
                    [("https://free-proxy-list.net/", None)])
           [Fixtures.scraped_candidate]).
  - vm_compute. reflexivity.
  - left.
Defined.

(** ** What one fetch and one probe do to the world *)

Lemma parse_soup_length (url parser_type : string) (sp : soup) :
  (length (parse_soup url parser_type sp) ≤ 19)%nat.
Proof.
  unfold parse_soup. case_decide; [|simpl; lia].
  destruct sp as [|t others]; [simpl; lia|].
  rewrite rows_loop_omap. simpl. rewrite omap_candidate_length.
  etrans; [apply length_filter|]. apply rows_slice_length.
Qed.

(** X5.  Whatever happens, one call of the fetcher sends exactly one
    request, for the source url and through no proxy, reads no clock and
    leaves the cache alone.  It prints an error exactly when the request
    or the parser raised: a page without a table, and a parser type other
    than "table", give the empty list without any message.  It never
    returns more than 19 candidates. *)
Theorem fetch_one_request_and_log (E : Env) (url parser_type : string)
    (s : state) :
  let raised :=
    requests_get E (tick s) url None = None
    ∨ ∃ r, requests_get E (tick s) url None = Some r
           ∧ BeautifulSoup E (text r) = None in
  ∃ found s',
    fetch_proxies_from_source E url parser_type s = (Ok found, s')
    ∧ sent s' = sent s ++ [(url, None)]
    ∧ tick s' = S (tick s)
    ∧ proxy_cache s' = proxy_cache s
    ∧ (raised → found = [] ∧ stdout s' = stdout s ++ [EvFetchError url])
    ∧ (¬ raised → stdout s' = stdout s)
    ∧ (parser_type ≠ "table" → found = [])
    ∧ (length found ≤ 19)%nat.
Proof.
  cbv zeta. rewrite fetch_proxies_from_source_eq. simpl.
  destruct (requests_get E (tick s) url None) as [r|] eqn:Hget.
  2: { eexists _, _. split; [done|]. split_and!; try done.
       - intros []. by left.
       - simpl. lia. }
  destruct (BeautifulSoup E (text r)) as [sp|] eqn:Hsoup.
  2: { eexists _, _. split; [done|]. split_and!; try done.
       - intros []. right. by exists r.
       - simpl. lia. }
  eexists _, _. split; [done|]. split_and!; try done.
  - intros [?|(r' & [= <-] & Hnone)]; [done|]. by rewrite Hsoup in Hnone.
  - intros Hpt. unfold parse_soup. by rewrite decide_False.
  - apply parse_soup_length.
Qed.

(** X6.  [test_proxy] prints a failure only when the probe raised.  A
    probe answered with a status other than 200 drops the candidate
    without any message, and the clock is read only for a candidate that
    is accepted. *)
Theorem test_proxy_logs_only_exceptions (E : Env) (p : proxy) (s : state) :
  let probe := requests_get E (tick s) TEST_URL (Some (proxy_url p)) in
  (probe = None →
     test_proxy E p s
     = (Ok None,
        mkState (proxy_cache s) (S (tick s))
                (stdout s ++ [EvProxyFailed (ip p) (port p)])
                (sent s ++ [probe_request p])))
  ∧ (∀ r, probe = Some r → status_code r ≠ 200 →
       test_proxy E p s
       = (Ok None,
          mkState (proxy_cache s) (S (tick s)) (stdout s)
                  (sent s ++ [probe_request p])))
  ∧ (∀ r, probe = Some r → status_code r = 200 →
       stdout (test_proxy E p s).2 = stdout s
       ∧ tick (test_proxy E p s).2 = S (S (tick s))).
Proof.
  cbv zeta. rewrite test_proxy_eq. simpl. split_and!.
  - by intros ->.
  - intros r -> Hst. by rewrite decide_False.
  - intros r -> Hst. by rewrite decide_True.
Qed.

(** ** The two fan-outs of a cycle *)

Section FanOut.

Context (E : Env).

Lemma fetch_all_spec (srcs : list (string * string)) (s : state) :
  ∃ found s',
    fetch_all E srcs s = (Ok found, s')
    ∧ sent s' = sent s ++ (source_request <$> srcs)
    ∧ (length found ≤ 19 * length srcs)%nat
    ∧ Forall (λ p, source p ∈ srcs.*1
                   ∧ protocol p = infer_protocol (source p)) found.
Proof.
  revert s. induction srcs as [|[url parser] srcs IH]; intros s; simpl.
  - exists [], s. split_and!; try done. by rewrite app_nil_r.
  - unfold bind.
    destruct (fetch_proxies_from_source E url parser s)
      as [[here|e] s1] eqn:Hhere.
    2: { destruct (fetch_proxies_from_source_quiet E url parser s)
           as (? & ? & Heq & _). congruence. }
    pose proof Hhere as Heval.
    rewrite fetch_proxies_from_source_eq in Heval. simpl in Heval.
    assert (Hsent : sent s1 = sent s ++ [(url, None)]).
    { destruct (requests_get _ _ _ _); [destruct (BeautifulSoup _ _)|];
        by injection Heval as _ <-. }
    assert (Hlen : (length here ≤ 19)%nat).
    { destruct (requests_get _ _ _ _); [destruct (BeautifulSoup _ _)|];
        injection Heval as <- _; simpl; try lia. apply parse_soup_length. }
    destruct (IH s1) as (others & s2 & -> & Hsent2 & Hlen2 & Hsrc).
    exists (here ++ others), s2. split_and!; [done| | |].
    + rewrite Hsent2, Hsent, <- app_assoc. done.
    + rewrite length_app. lia.
    + apply Forall_app. split.
      * apply Forall_forall. intros p Hp.
        destruct (fetch_proxies_from_source_elem _ _ _ _ _ _ _ Hhere Hp)
          as (r & t & tables & c0 & c1 & rest & _ & _ & _ & ->).
        simpl. split; [left|done].
      * eapply Forall_impl; [exact Hsrc|]. intros p [Hp ?].
        split; [by right|done].
Qed.

Lemma verify_all_spec (ps : list proxy) (s : state) :
  ∃ kept s' passed,
    verify_all E ps s = (Ok kept, s')
    ∧ sent s' = sent s ++ (probe_request <$> ps)
    ∧ proxy_cache s' = proxy_cache s
    ∧ passed `sublist_of` ps
    ∧ Forall2 (λ p q, ∃ checked, q = mark_working p checked) passed kept.
Proof.
  revert s. induction ps as [|p ps IH]; intros s; simpl.
  - exists [], s, []. split_and!; try done. by rewrite app_nil_r.
  - unfold bind. rewrite test_proxy_eq. simpl. fold (probe_request p).
    destruct (requests_get E (tick s) TEST_URL _) as [r|];
      [case_decide|];
      match goal with
      | |- context [verify_all E ps ?s1] =>
          destruct (IH s1) as (kept & s2 & passed & -> & Hsent & Hc & Hsub & Hall)
      end; simpl in Hsent, Hc.
    + exists (mark_working p
                (isoformat E (datetime_now E (S (tick s)))) :: kept),
        s2, (p :: passed).
      split_and!; try done.
      * by rewrite Hsent, <- app_assoc.
      * by apply sublist_skip.
      * constructor; [by eexists|done].
    + exists kept, s2, passed. split_and!; try done.
      * by rewrite Hsent, <- app_assoc.
      * by apply sublist_cons.
    + exists kept, s2, passed. split_and!; try done.
      * by rewrite Hsent, <- app_assoc.
      * by apply sublist_cons.
Qed.

Lemma marked_endpoints (passed kept : list proxy) :
  Forall2 (λ p q, ∃ checked, q = mark_working p checked) passed kept →
  endpoint <$> kept = endpoint <$> passed
  ∧ source <$> kept = source <$> passed
  ∧ protocol <$> kept = protocol <$> passed
  ∧ Forall (λ q, working q = Some true ∧ is_Some (last_checked q)) kept.
Proof.
  induction 1 as [|p q passed kept [checked ->] _ (IH1 & IH2 & IH3 & IH4)].
  - done.
  - rewrite !fmap_cons, IH1, IH2, IH3. split_and!; try done.
    constructor; [|done]. split; [done|by eexists].
Qed.

End FanOut.

(** ** Statistics *)

Lemma sum_counts_insert_fresh (m : gmap string Z) (d : string) (v : Z) :
  m !! d = None → sum_counts (<[d:=v]> m) = v + sum_counts m.
Proof.
  intros Hd. unfold sum_counts.
  rewrite map_fold_insert_L; [done| |done]. intros. lia.
Qed.

Lemma sum_counts_bump (m : gmap string Z) (d : string) :
  sum_counts (<[d := default 0 (m !! d) + 1]> m) = sum_counts m + 1.
Proof.
  destruct (m !! d) as [v|] eqn:Hd; simpl.
  - rewrite <- (insert_delete_id m d v Hd) at 2.
    rewrite <- insert_delete_eq.
    rewrite !sum_counts_insert_fresh by apply lookup_delete_eq. lia.
  - rewrite sum_counts_insert_fresh by done. lia.
Qed.

Lemma count_where_cons (P : proxy → Prop) `{!∀ p, Decision (P p)}
    (p : proxy) (ps : list proxy) :
  count_where P (p :: ps)
  = (if decide (P p) then 1 else 0) + count_where P ps.
Proof.
  unfold count_where. rewrite filter_cons. case_decide; simpl; lia.
Qed.

Section Stats.

Context (E : Env).

Lemma count_sources_cons (p : proxy) (ps : list proxy)
    (acc : gmap string Z) :
  count_sources (p :: ps) acc =
    match domain_of p with
    | None => raise IndexError
    | Some d => count_sources ps (<[d := default 0 (acc !! d) + 1]> acc)
    end.
Proof. reflexivity. Qed.

Lemma count_sources_state (ps : list proxy) (acc : gmap string Z)
    (s : state) :
  (count_sources ps acc s).2 = s.
Proof.
  revert acc. induction ps as [|p ps IH]; intros acc; [done|].
  rewrite count_sources_cons. destruct (domain_of p); [apply IH|done].
Qed.

Lemma count_sources_ok (ps : list proxy) (acc : gmap string Z) (s : state) :
  Forall (λ p, is_Some (domain_of p)) ps →
  ∃ srcs,
    count_sources ps acc s = (Ok srcs, s)
    ∧ sum_counts srcs = sum_counts acc + Z.of_nat (length ps)
    ∧ ∀ d, default 0 (srcs !! d)
           = default 0 (acc !! d)
             + count_where (λ p, domain_of p = Some d) ps.
Proof.
  intros Hall. revert acc.
  induction Hall as [|p ps [d Hd] _ IH]; intros acc.
  - exists acc. split; [done|]. split; [simpl; lia|].
    intros d. unfold count_where. simpl. lia.
  - rewrite count_sources_cons, Hd.
    destruct (IH (<[d := default 0 (acc !! d) + 1]> acc))
      as (srcs & -> & Hsum & Hcount).
    exists srcs. split; [done|]. split.
    + rewrite Hsum, sum_counts_bump, length_cons. lia.
    + intros d'. rewrite Hcount, count_where_cons, Hd.
      destruct (decide (d = d')) as [->|Hne].
      * rewrite lookup_insert_eq, decide_True by done. simpl. lia.
      * rewrite lookup_insert_ne by done.
        rewrite decide_False by congruence. lia.
Qed.

Lemma count_sources_raises (ps : list proxy) (acc : gmap string Z)
    (s : state) :
  Exists (λ p, domain_of p = None) ps →
  count_sources ps acc s = (Raised IndexError, s).
Proof.
  intros Hex. revert acc. induction Hex as [p ps Hp|p ps _ IH]; intros acc.
  - by rewrite count_sources_cons, Hp.
  - rewrite count_sources_cons. destruct (domain_of p); [apply IH|done].
Qed.

(** The state in which [get_stats] counts: after the cycle it runs on an
    empty cache, or the state it was called in. *)
Lemma get_stats_eq (s : state) :
  get_stats E s =
    let s1 := match proxies (proxy_cache s) with
              | [] => (update_proxy_cache E s).2
              | _ :: _ => s
              end in
    let ps := proxies (proxy_cache s1) in
    match count_sources ps ∅ s1 with
    | (Ok srcs, s2) =>
        match last_updated (proxy_cache s1) with
        | Some lu =>
            (Ok (StatsBody (Z.of_nat (length ps))
                   (count_where (λ p, protocol p = "http") ps)
                   (Z.of_nat (length ps)
                    - count_where (λ p, protocol p = "http") ps)
                   srcs (isoformat E lu), 200), s2)
        | None => (Raised AttributeError, s2)
        end
    | (Raised e, s2) => (Raised e, s2)
    end.
Proof.
  unfold get_stats, bind, get_cache, count_where. simpl.
  destruct (proxies (proxy_cache s)) as [|p ps] eqn:Hps.
  - destruct (update_proxy_cache_eq E s) as (w & s1 & _ & _ & _ & ->).
    simpl.
    destruct (count_sources w ∅ (published E w s1)) as [[srcs|e] s2];
      done.
  - simpl. rewrite Hps.
    destruct (count_sources (p :: ps) ∅ s) as [[srcs|e] s2]; [|done].
    unfold last_updated_iso. by destruct (last_updated (proxy_cache s)).
Qed.

End Stats.

Lemma count_where_split (P : proxy → Prop) `{!∀ p, Decision (P p)}
    (ps : list proxy) :
  count_where P ps + count_where (λ p, ¬ P p) ps = Z.of_nat (length ps).
Proof.
  induction ps as [|p ps IH]; [done|].
  rewrite !count_where_cons, length_cons.
  destruct (decide (P p)).
  - rewrite decide_False by tauto. lia.
  - rewrite decide_True by done. lia.
Qed.

Lemma domains_known_or_missing (ps : list proxy) :
  Forall (λ p, is_Some (domain_of p)) ps
  ∨ Exists (λ p, domain_of p = None) ps.
Proof.
  induction ps as [|p ps [IH|IH]].
  - by left.
  - destruct (domain_of p) as [d|] eqn:Hd.
    + left. constructor; [by rewrite Hd|done].
    + right. by left.
  - right. by right.
Qed.

(** X9.  Whenever [GET /stats] answers, its figures describe the cache it
    leaves: [total_proxies] is the number of entries, [http_proxies] the
    number of entries whose protocol is "http", [https_proxies] the
    number of all other entries (it is computed by subtraction), and
    [sources] maps each domain, the third part of the source url split
    at "/", to the number of entries from it, so that its values add up
    to the total. *)
Theorem get_stats_counts (E : Env) (s s' : state) (total http https : Z)
    (srcs : gmap string Z) (iso : string) (st : Z) :
  get_stats E s = (Ok (StatsBody total http https srcs iso, st), s') →
  st = 200
  ∧ total = Z.of_nat (length (proxies (proxy_cache s')))
  ∧ http = count_where (λ p, protocol p = "http") (proxies (proxy_cache s'))
  ∧ https
    = count_where (λ p, protocol p ≠ "http") (proxies (proxy_cache s'))
  ∧ http + https = total
  ∧ (∀ d, default 0 (srcs !! d)
          = count_where (λ p, domain_of p = Some d)
              (proxies (proxy_cache s')))
  ∧ sum_counts srcs = total
  ∧ ∃ T, last_updated (proxy_cache s') = Some T ∧ iso = isoformat E T.
Proof.
  rewrite get_stats_eq. cbv zeta.
  set (s1 := match proxies (proxy_cache s) with
             | [] => (update_proxy_cache E s).2
             | _ :: _ => s
             end).
  pose proof (count_sources_state (proxies (proxy_cache s1)) ∅ s1) as Hst.
  destruct (domains_known_or_missing (proxies (proxy_cache s1)))
    as [Hdom|Hmiss].
  2: { by rewrite (count_sources_raises _ ∅ s1 Hmiss). }
  destruct (count_sources_ok _ ∅ s1 Hdom) as (m & Hm & Hsum & Hcount).
  rewrite Hm. destruct (last_updated (proxy_cache s1)) as [lu|] eqn:Hlu;
    [|done].
  intros [= <- <- <- <- <- <- <-].
  pose proof (count_where_split (λ p, protocol p = "http")
                (proxies (proxy_cache s1))) as Hsplit.
  cbv beta in Hsplit.
  split_and!; [done|done|done|lia|lia| | |by exists lu].
  - intros d. rewrite Hcount, lookup_empty. simpl. lia.
  - rewrite Hsum. unfold sum_counts. rewrite map_fold_empty. lia.
Qed.

Lemma get_stats_counts_witness :
  200 = 200
  ∧ 1 = Z.of_nat (length (proxies (proxy_cache Fixtures.filled_at_zero)))
  ∧ 1 = count_where (λ p, protocol p = "http")
          (proxies (proxy_cache Fixtures.filled_at_zero))
  ∧ 0 = count_where (λ p, protocol p ≠ "http")
          (proxies (proxy_cache Fixtures.filled_at_zero))
  ∧ 1 + 0 = 1
  ∧ (∀ d, default 0 (({[ "free-proxy-list.net" := 1 ]} : gmap string Z) !! d)
          = count_where (λ p, domain_of p = Some d)
              (proxies (proxy_cache Fixtures.filled_at_zero)))
  ∧ sum_counts {[ "free-proxy-list.net" := 1 ]} = 1
  ∧ ∃ T, last_updated (proxy_cache Fixtures.filled_at_zero) = Some T
         ∧ "T0" = isoformat Fixtures.late_world T.
Proof.
  apply (get_stats_counts Fixtures.late_world Fixtures.filled_at_zero
           Fixtures.filled_at_zero 1 1 0 {[ "free-proxy-list.net" := 1 ]}
           "T0" 200).
  vm_compute. reflexivity.
Defined.

(** X10.  [GET /stats] fails with an [IndexError], and leaves the state
    as it is, when some entry of a non-empty cache has a source with
    fewer than three parts between "/". *)
Theorem get_stats_short_source_raises (E : Env) (s : state) :
  proxies (proxy_cache s) ≠ [] →
  Exists (λ p, domain_of p = None) (proxies (proxy_cache s)) →
  get_stats E s = (Raised IndexError, s).
Proof.
  intros Hne Hmiss. rewrite get_stats_eq. cbv zeta.
  destruct (proxies (proxy_cache s)) as [|p ps] eqn:Hps; [done|].
  rewrite Hps. by rewrite (count_sources_raises _ ∅ s Hmiss).
Qed.

Lemma get_stats_short_source_raises_witness :
  get_stats Fixtures.early_world Fixtures.mixed_cache
  = (Raised IndexError, Fixtures.mixed_cache).
Proof.
  apply (get_stats_short_source_raises Fixtures.early_world
           Fixtures.mixed_cache).
  - discriminate.
  - left. reflexivity.
Defined.

(** ** What a cycle writes, and what the server answers from it *)

Lemma configured_domain (p : proxy) :
  source p ∈ configured_urls → is_Some (domain_of p).
Proof.
  unfold configured_urls, domain_of. simpl.
  rewrite !elem_of_cons, elem_of_nil.
  intros [->|[->|[->|[->|[]]]]]; vm_compute; by eexists.
Qed.

Lemma marked_origin (passed kept : list proxy) (q : proxy) :
  Forall2 (λ p q, ∃ checked, q = mark_working p checked) passed kept →
  q ∈ kept → ∃ p checked, p ∈ passed ∧ q = mark_working p checked.
Proof.
  induction 1 as [|p q' passed kept [checked ->] _ IH].
  - by intros ?%elem_of_nil.
  - intros [->|Hq]%elem_of_cons.
    + exists p, checked. split; [left|done].
    + destruct (IH Hq) as (p' & checked' & Hp' & ->).
      exists p', checked'. split; [by right|done].
Qed.

Section CycleCache.

Context (E : Env).

Lemma harvest_cycle_entries (s s' : state) (working_proxies : list proxy) :
  harvest E s = (Ok working_proxies, s') →
  NoDup (endpoint <$> working_proxies)
  ∧ Forall harvested_entry working_proxies
  ∧ (length working_proxies ≤ 19 * length sources)%nat.
Proof.
  unfold harvest, bind.
  destruct (fetch_all_spec E sources s) as (found & s1 & -> & _ & Hlen & Hsrc).
  destruct (verify_all_spec E (dedupe found) s1)
    as (kept & s2 & passed & -> & _ & _ & Hsub & Hall).
  intros [= <- <-].
  destruct (marked_endpoints _ _ Hall) as (Hend & _).
  assert (Hsub' : passed `sublist_of` found).
  { etrans; [exact Hsub|apply dedupe_loop_sublist]. }
  split_and!.
  - rewrite Hend. eapply sublist_NoDup; [apply dedupe_NoDup_endpoint|].
    by apply fmap_sublist.
  - apply Forall_forall. intros q Hq.
    destruct (marked_origin _ _ _ Hall Hq) as (p & checked & Hp & ->).
    rewrite Forall_forall in Hsrc.
    destruct (Hsrc p) as [Hin Hproto]; [by eapply elem_of_sublist|].
    unfold harvested_entry. simpl. by split_and!.
  - rewrite <- (Forall2_length _ _ _ Hall).
    etrans; [by apply sublist_length|done].
Qed.

Lemma update_proxy_cache_cycle_cache (s : state) :
  cycle_cache (proxy_cache (update_proxy_cache E s).2)
  ∧ expires_in (proxy_cache (update_proxy_cache E s).2)
    = expires_in (proxy_cache s).
Proof.
  destruct (update_proxy_cache_eq E s) as (w & s1 & Hh & Hc & _ & ->).
  destruct (harvest_cycle_entries _ _ _ Hh) as (Hnd & Hall & Hlen).
  simpl. rewrite Hc. split; [|done]. by split_and!.
Qed.

End CycleCache.

(** X11.  After [update_proxy_cache], whatever the cache held before: no
    two entries share an (address, port) pair; every entry comes from one
    of the configured sources, has the protocol inferred from that
    source's url, is marked as working and carries a check time; there are
    at most 76 entries; [last_updated] is set and the lifetime of the
    cache is the one it had. *)
Theorem cycle_writes_clean_cache (E : Env) (s : state) :
  let c := proxy_cache (update_proxy_cache E s).2 in
  NoDup (endpoint <$> proxies c)
  ∧ Forall (λ p, source p ∈ configured_urls
                 ∧ protocol p = infer_protocol (source p)
                 ∧ working p = Some true
                 ∧ is_Some (last_checked p)) (proxies c)
  ∧ (length (proxies c) ≤ 76)%nat
  ∧ is_Some (last_updated c)
  ∧ expires_in c = expires_in (proxy_cache s).
Proof.
  destruct (update_proxy_cache_cycle_cache E s)
    as ((Hlu & Hnd & Hall & Hlen) & Hexp).
  cbv zeta. split_and!; done.
Qed.

Section Serving.

Context (E : Env).

(** The test and the refresh that open [get_proxies] and
    [get_proxies_by_protocol], on a cache written by a cycle. *)
Lemma refresh_then {A} (k : M A) (s : state) :
  cycle_cache (proxy_cache s) →
  ∃ s1,
    (let* expired := cache_expired E in
     do (if expired : bool then update_proxy_cache E else ret tt) then k) s
    = k s1
    ∧ cycle_cache (proxy_cache s1)
    ∧ expires_in (proxy_cache s1) = expires_in (proxy_cache s).
Proof.
  intros Hcc. unfold bind. rewrite cache_expired_eq.
  assert (Hup : ∀ s0, proxy_cache s0 = proxy_cache s →
    ∃ s1, update_proxy_cache E s0 = (Ok tt, s1)
          ∧ cycle_cache (proxy_cache s1)
          ∧ expires_in (proxy_cache s1) = expires_in (proxy_cache s)).
  { intros s0 Hs0.
    pose proof (update_proxy_cache_cycle_cache E s0) as [Hc He].
    destruct (update_proxy_cache_eq E s0) as (w & s1 & _ & _ & _ & Heq).
    rewrite Heq in Hc, He. exists (published E w s1).
    by rewrite <- Hs0. }
  destruct (proxies (proxy_cache s)) as [|p ps] eqn:Hps.
  - destruct (Hup s eq_refl) as (s1 & -> & ? & ?). by exists s1.
  - pose proof Hcc as ([lu Hlu] & _). rewrite Hlu. case_bool_decide.
    + destruct (Hup (ticked s) eq_refl) as (s1 & -> & ? & ?). by exists s1.
    + exists (ticked s). split; [done|]. split; [|done].
      split; [by exists lu|]. simpl. rewrite Hps.
      destruct Hcc as (_ & ? & ? & ?). by rewrite Hps in *.
Qed.

Lemma handle_on_cycle_cache (r : request) (s : state) :
  cycle_cache (proxy_cache s) →
  well_answered r (handle E r s).1
  ∧ cycle_cache (proxy_cache (handle E r s).2)
  ∧ expires_in (proxy_cache (handle E r s).2) = expires_in (proxy_cache s).
Proof.
  intros Hcc. destruct r as [|proto|]; simpl.
  - unfold get_proxies.
    destruct (refresh_then (respond_proxies E) s Hcc) as (s1 & -> & Hc1 & He).
    unfold respond_proxies, bind, get_cache, last_updated_iso. simpl.
    destruct Hc1 as ([lu Hlu] & Hnd & Hall & Hlen). rewrite Hlu. simpl.
    by split_and!.
  - unfold get_proxies_by_protocol. case_decide as Hproto.
    + destruct (refresh_then
                  (let* c := get_cache in
                   ret (jsonify
                          (ByProtocolBody
                             (length (filter (λ p, protocol p = proto)
                                        (proxies c)))
                             proto
                             (filter (λ p, protocol p = proto) (proxies c)))))
                  s Hcc) as (s1 & -> & Hc1 & He).
      unfold bind, get_cache. simpl. split_and!; try done.
      * eapply sublist_NoDup; [apply Hc1|]. apply fmap_sublist, sublist_filter.
      * destruct Hc1 as (_ & _ & Hall & _). rewrite Forall_forall in Hall.
        apply Forall_forall. intros p [Hp Hin]%in_filtered. auto.
    + simpl. split_and!; try done; intros ->; apply Hproto; auto.
  - rewrite get_stats_eq. cbv zeta.
    assert (Hs1 : cycle_cache
                    (proxy_cache
                       match proxies (proxy_cache s) with
                       | [] => (update_proxy_cache E s).2
                       | _ :: _ => s
                       end)
                  ∧ expires_in
                      (proxy_cache
                         match proxies (proxy_cache s) with
                         | [] => (update_proxy_cache E s).2
                         | _ :: _ => s
                         end) = expires_in (proxy_cache s)).
    { destruct (proxies (proxy_cache s)); [|done].
      apply update_proxy_cache_cycle_cache. }
    set (s1 := match proxies (proxy_cache s) with
               | [] => (update_proxy_cache E s).2
               | _ :: _ => s
               end) in *.
    destruct Hs1 as [Hc1 He].
    pose proof Hc1 as ([lu Hlu] & _ & Hall & _).
    assert (Hdom : Forall (λ p, is_Some (domain_of p))
                          (proxies (proxy_cache s1))).
    { eapply Forall_impl; [exact Hall|].
      intros p (Hsrc & _). by apply configured_domain. }
    destruct (count_sources_ok _ ∅ s1 Hdom) as (m & -> & Hsum & _).
    rewrite Hlu. simpl.
    pose proof (count_where_split (λ p, protocol p = "http")
                  (proxies (proxy_cache s1))) as Hsplit.
    cbv beta in Hsplit.
    assert (0 <= count_where (λ p, protocol p = "http")
                   (proxies (proxy_cache s1))) by (unfold count_where; lia).
    assert (0 <= count_where (λ p, protocol p ≠ "http")
                   (proxies (proxy_cache s1))) by (unfold count_where; lia).
    rewrite Hsum. unfold sum_counts. rewrite map_fold_empty.
    split_and!; try done; lia.
Qed.

Lemma serve_on_cycle_cache (reqs : list request) (s : state) :
  cycle_cache (proxy_cache s) →
  Forall2 well_answered reqs (serve E reqs s).1
  ∧ cycle_cache (proxy_cache (serve E reqs s).2)
  ∧ expires_in (proxy_cache (serve E reqs s).2) = expires_in (proxy_cache s).
Proof.
  revert s. induction reqs as [|r reqs IH]; intros s Hcc; simpl.
  - split_and!; done.
  - destruct (handle_on_cycle_cache r s Hcc) as (Hr & Hc1 & He1).
    destruct (handle E r s) as [o s1]. simpl in *.
    destruct (IH s1 Hc1) as (Hrs & Hc2 & He2).
    destruct (serve E reqs s1) as [os s2]. simpl in *.
    split_and!; [by constructor|done|congruence].
Qed.

End Serving.

(** X12.  Once the cache has been loaded at start-up, the server answers
    every request of every sequence of requests, whatever the network
    does: no handler raises.  [GET /proxies] lists entries with pairwise
    different (address, port), all written by a cycle, and [count] is
    their number; [GET /proxies/<protocol>] answers 400 exactly for a
    protocol other than "http" and "https" and otherwise lists only
    entries of that protocol; the figures of [GET /stats] add up.  The
    lifetime of the cache stays 30 minutes. *)
Theorem server_always_answers (E : Env) (reqs : list request) :
  Forall2 well_answered reqs (serve E reqs (startup E)).1
  ∧ cycle_cache (proxy_cache (serve E reqs (startup E)).2)
  ∧ expires_in (proxy_cache (serve E reqs (startup E)).2)
    = timedelta_minutes CACHE_EXPIRATION_MINUTES.
Proof.
  destruct (update_proxy_cache_cycle_cache E (mkState initial_cache 0 [] []))
    as [Hcc Hexp].
  destruct (serve_on_cycle_cache E reqs (startup E) Hcc) as (Hall & Hc & He).
  split_and!; [done|done|].
  rewrite He. exact Hexp.
Qed.

(** ** Consecutive reads *)

Section ConsecutiveReads.

Context (E : Env).

Lemma respond_proxies_eq (s : state) :
  respond_proxies E s =
    match last_updated (proxy_cache s) with
    | Some lu =>
        (Ok (jsonify (ProxiesBody (length (proxies (proxy_cache s)))
                        (isoformat E lu) (proxies (proxy_cache s)))), s)
    | None => (Raised AttributeError, s)
    end.
Proof.
  unfold respond_proxies, bind, get_cache, last_updated_iso. simpl.
  by destruct (last_updated (proxy_cache s)).
Qed.

(** An answer of [get_proxies] always shows the cache the call leaves. *)
Lemma get_proxies_response (s s1 : state) (answer : http_response) :
  get_proxies E s = (Ok answer, s1) →
  ∃ T, last_updated (proxy_cache s1) = Some T
       ∧ answer = jsonify (ProxiesBody (length (proxies (proxy_cache s1)))
                             (isoformat E T) (proxies (proxy_cache s1))).
Proof.
  unfold get_proxies, bind. rewrite cache_expired_eq.
  assert (Hresp : ∀ s0, respond_proxies E s0 = (Ok answer, s1) →
    ∃ T, last_updated (proxy_cache s1) = Some T
         ∧ answer = jsonify (ProxiesBody (length (proxies (proxy_cache s1)))
                               (isoformat E T) (proxies (proxy_cache s1)))).
  { intros s0. rewrite respond_proxies_eq.
    destruct (last_updated (proxy_cache s0)) as [lu|] eqn:Hlu; [|done].
    intros [= <- <-]. by exists lu. }
  destruct (proxies (proxy_cache s)) as [|p ps].
  - destruct (update_proxy_cache_eq E s) as (w & s0 & _ & _ & _ & ->).
    apply Hresp.
  - destruct (last_updated (proxy_cache s)) as [lu|]; [|done].
    case_bool_decide.
    + destruct (update_proxy_cache_eq E (ticked s))
        as (w & s0 & _ & _ & _ & ->).
      apply Hresp.
    + apply Hresp.
Qed.

End ConsecutiveReads.

(** X13.  A second [GET /proxies] that comes while the entries written
    or kept by the first are still within their lifetime gets the very
    same answer as the first, runs no cycle and sends no request. *)
Theorem get_proxies_hit_after_read (E : Env) (s s1 : state)
    (answer : http_response) (T : Z) :
  get_proxies E s = (Ok answer, s1) →
  proxies (proxy_cache s1) ≠ [] →
  last_updated (proxy_cache s1) = Some T →
  datetime_now E (tick s1) <= T + expires_in (proxy_cache s1) →
  ∃ s2,
    get_proxies E s1 = (Ok answer, s2)
    ∧ proxy_cache s2 = proxy_cache s1
    ∧ cycles_run s2 = cycles_run s1
    ∧ sent s2 = sent s1.
Proof.
  intros Hfirst Hne HT Hearly.
  destruct (get_proxies_response E _ _ _ Hfirst) as (T' & HT' & ->).
  rewrite HT in HT'. injection HT' as <-.
  exists (ticked s1). unfold get_proxies, bind.
  rewrite (cache_expired_false E s1 T) by done.
  unfold respond_proxies, bind, last_updated_iso. simpl. by rewrite HT.
Qed.

Lemma get_proxies_hit_after_read_witness :
  ∃ s2,
    get_proxies Fixtures.one_row_world
      (get_proxies Fixtures.one_row_world Fixtures.fresh_start).2
    = (Ok (ProxiesBody 1 "T6" [Fixtures.served_entry], 200), s2)
    ∧ proxy_cache s2
      = proxy_cache (get_proxies Fixtures.one_row_world
                       Fixtures.fresh_start).2
    ∧ cycles_run s2
      = cycles_run (get_proxies Fixtures.one_row_world
                      Fixtures.fresh_start).2
    ∧ sent s2
      = sent (get_proxies Fixtures.one_row_world Fixtures.fresh_start).2.
Proof.
  apply (get_proxies_hit_after_read Fixtures.one_row_world
           Fixtures.fresh_start _ _ 6).
  - vm_compute. reflexivity.
  - vm_compute. discriminate.
  - vm_compute. reflexivity.
  - vm_compute. discriminate.
Defined.

(** X14.  An empty result is not cached: after a [GET /proxies] that
    lists no proxy, the next [GET /proxies] runs a new cycle, whatever
    the clock says and however soon it comes. *)
Theorem empty_result_is_not_cached (E E' : Env) (s s1 : state) (n : nat)
    (iso : string) (st : Z) :
  get_proxies E s = (Ok (ProxiesBody n iso [], st), s1) →
  proxies (proxy_cache s1) = []
  ∧ cycles_run (get_proxies E' s1).2 = S (cycles_run s1).
Proof.
  intros Hfirst.
  destruct (get_proxies_response E _ _ _ Hfirst) as (T & HT & Heq).
  injection Heq as _ _ Hps _. symmetry in Hps. split; [done|].
  unfold get_proxies, bind. rewrite cache_expired_eq, Hps.
  destruct (update_proxy_cache_eq E' s1) as (w & s2 & _ & _ & Hn & ->).
  rewrite respond_proxies_eq. simpl.
  by rewrite cycles_run_published.
Qed.

Lemma empty_result_is_not_cached_witness :
  proxies (proxy_cache (get_proxies Fixtures.late_world
                          Fixtures.fresh_start).2) = []
  ∧ cycles_run
      (get_proxies Fixtures.early_world
         (get_proxies Fixtures.late_world Fixtures.fresh_start).2).2
    = S (cycles_run (get_proxies Fixtures.late_world
                       Fixtures.fresh_start).2).
Proof.
  apply (empty_result_is_not_cached Fixtures.late_world Fixtures.early_world
           Fixtures.fresh_start _ 0 "T1860000000" 200).
  vm_compute. reflexivity.
Defined.

(** ** The calls of a cycle *)

Lemma scraped_between_mono (E : Env) (k0 k1 k0' k1' : nat) (p : proxy) :
  (k0' ≤ k0)%nat → (k1 ≤ k1')%nat →
  scraped_between E k0 k1 p → scraped_between E k0' k1' p.
Proof. intros ? ? (k & ? & ?). exists k. split; [lia|done]. Qed.

Lemma scraped_at_marked (E : Env) (k : nat) (p : proxy) (checked : string) :
  scraped_at E k p → scraped_at E k (mark_working p checked).
Proof. done. Qed.

Section Calls.

Context (E : Env).

Lemma fetch_result_failed (src : string * string) (k : nat) :
  (requests_get E k src.1 None = None
   ∨ ∃ r, requests_get E k src.1 None = Some r
          ∧ BeautifulSoup E (text r) = None) →
  fetch_result E src k = [].
Proof.
  unfold fetch_result. intros [->|(r & -> & ->)]; done.
Qed.

Lemma fetch_result_scraped (url parser : string) (k : nat) (p : proxy) :
  (url, parser) ∈ sources → p ∈ fetch_result E (url, parser) k →
  scraped_at E k p.
Proof.
  unfold fetch_result. simpl. intros Hsrc.
  destruct (requests_get E k url None) as [r|] eqn:Hget;
    [|by intros ?%elem_of_nil].
  destruct (BeautifulSoup E (text r)) as [sp|] eqn:Hsoup;
    [|by intros ?%elem_of_nil].
  intros (t & others & c0 & c1 & rest & -> & _ & Hrow & ->)%parse_soup_elem.
  apply rows_slice_elem in Hrow as (i & Hi & Hrow).
  by exists parser, r, t, others, i, c0, c1, rest.
Qed.

Lemma probe_verdict_failed (p : proxy) (kk : nat * nat) :
  ¬ (∃ r, requests_get E kk.1 TEST_URL (Some (proxy_url p)) = Some r
          ∧ status_code r = 200) →
  probe_verdict E p kk = None.
Proof.
  unfold probe_verdict. intros Hno.
  destruct (requests_get E kk.1 TEST_URL _) as [r|]; [|done].
  case_decide; [|done]. destruct Hno. by exists r.
Qed.

Lemma probe_verdict_Some (p q : proxy) (kk : nat * nat) :
  probe_verdict E p kk = Some q →
  q = mark_working p (isoformat E (datetime_now E kk.2))
  ∧ ∃ r, requests_get E kk.1 TEST_URL (Some (proxy_url p)) = Some r
         ∧ status_code r = 200.
Proof.
  unfold probe_verdict.
  destruct (requests_get E kk.1 TEST_URL _) as [r|]; [|done].
  case_decide; [|done]. intros [= <-]. split; [done|]. by exists r.
Qed.

(** One fetch, by the number of its call. *)
Lemma fetch_proxies_from_source_call (url parser : string) (s : state) :
  ∃ s1,
    fetch_proxies_from_source E url parser s
    = (Ok (fetch_result E (url, parser) (tick s)), s1)
    ∧ tick s1 = S (tick s)
    ∧ proxy_cache s1 = proxy_cache s
    ∧ sent s1 = sent s ++ [(url, None)].
Proof.
  rewrite fetch_proxies_from_source_eq. unfold fetch_result. simpl.
  destruct (requests_get E (tick s) url None) as [r|];
    [destruct (BeautifulSoup E (text r))|]; by eexists.
Qed.

Lemma fetch_all_calls (srcs : list (string * string)) (s : state) :
  ∃ s',
    fetch_all E srcs s
    = (Ok (mjoin (zip_with (fetch_result E) srcs
                    (seq (tick s) (length srcs)))), s')
    ∧ tick s' = (tick s + length srcs)%nat
    ∧ proxy_cache s' = proxy_cache s
    ∧ sent s' = sent s ++ (source_request <$> srcs).
Proof.
  revert s. induction srcs as [|[url parser] srcs IH]; intros s.
  - exists s. simpl. split_and!; try done. by rewrite app_nil_r.
  - simpl. unfold bind.
    destruct (fetch_proxies_from_source_call url parser s)
      as (s1 & -> & Ht & Hc & Hsent).
    destruct (IH s1) as (s2 & -> & Ht2 & Hc2 & Hsent2).
    exists s2. rewrite Ht. split_and!; try done.
    + lia.
    + congruence.
    + rewrite Hsent2, Hsent, <- app_assoc. done.
Qed.

(** One probe, by the numbers of its calls. *)
Lemma test_proxy_call (p : proxy) (s : state) :
  ∃ s1,
    test_proxy E p s = (Ok (probe_verdict E p (tick s, S (tick s))), s1)
    ∧ (tick s < tick s1 ≤ S (S (tick s)))%nat
    ∧ proxy_cache s1 = proxy_cache s
    ∧ sent s1 = sent s ++ [probe_request p].
Proof.
  rewrite test_proxy_eq. unfold probe_verdict. simpl.
  destruct (requests_get E (tick s) TEST_URL _) as [r|];
    [case_decide|]; eexists; (split; [done|]); simpl;
    (split; [lia|done]).
Qed.

Lemma verify_all_calls (ps : list proxy) (s : state) :
  ∃ s' calls,
    verify_all E ps s
    = (Ok (omap (λ pk, probe_verdict E pk.1 pk.2) (zip ps calls)), s')
    ∧ length calls = length ps
    ∧ NoDup calls.*1
    ∧ Forall (λ kk, (tick s ≤ kk.1 < tick s')%nat
                    ∧ (tick s < kk.2 ≤ tick s')%nat) calls
    ∧ (tick s ≤ tick s')%nat
    ∧ proxy_cache s' = proxy_cache s
    ∧ sent s' = sent s ++ (probe_request <$> ps).
Proof.
  revert s. induction ps as [|p ps IH]; intros s.
  - exists s, []. simpl.
    split_and!; try done; [constructor|by rewrite app_nil_r].
  - simpl. unfold bind.
    destruct (test_proxy_call p s) as (s1 & -> & Ht & Hc & Hsent).
    destruct (IH s1)
      as (s2 & calls & -> & Hlen & Hnd & Hall & Ht2 & Hc2 & Hsent2).
    exists s2, ((tick s, S (tick s)) :: calls). simpl.
    split_and!.
    + by destruct (probe_verdict E p (tick s, S (tick s))).
    + by rewrite Hlen.
    + constructor; [|done].
      intros (kk & Heq & Hkk)%list_elem_of_fmap.
      rewrite Forall_forall in Hall. destruct (Hall kk Hkk). lia.
    + constructor; [simpl; lia|].
      eapply Forall_impl; [exact Hall|]. simpl. intros kk [? ?]. lia.
    + lia.
    + congruence.
    + rewrite Hsent2, Hsent, <- app_assoc. done.
Qed.

End Calls.

Section CycleCalls.

Context (E : Env).

Lemma found_scraped (srcs : list (string * string)) (ks : list nat)
    (p : proxy) :
  srcs ⊆ sources →
  p ∈ mjoin (zip_with (fetch_result E) srcs ks) →
  ∃ k, k ∈ ks ∧ scraped_at E k p.
Proof.
  intros Hsub (l & Hp & Hl)%list_elem_of_join.
  apply elem_of_zip_with in Hl as ([url parser] & k & -> & Hsrc & Hk).
  exists k. split; [done|].
  eapply fetch_result_scraped; [|exact Hp]. by apply Hsub.
Qed.

(** A harvest, by the numbers of its calls: the fetches come first, one
    call each, then the probes. *)
Lemma harvest_calls (s : state) :
  ∃ s1 s' calls,
    let found := mjoin (zip_with (fetch_result E) sources
                          (seq (tick s) (length sources))) in
    fetch_all E sources s = (Ok found, s1)
    ∧ harvest E s
      = (Ok (omap (λ pk, probe_verdict E pk.1 pk.2)
               (zip (dedupe found) calls)), s')
    ∧ tick s1 = (tick s + length sources)%nat
    ∧ length calls = length (dedupe found)
    ∧ NoDup calls.*1
    ∧ Forall (λ kk, (tick s1 ≤ kk.1 < tick s')%nat
                    ∧ (tick s1 < kk.2 ≤ tick s')%nat) calls
    ∧ (tick s1 ≤ tick s')%nat
    ∧ proxy_cache s' = proxy_cache s
    ∧ sent s'
      = sent s ++ (source_request <$> sources)
               ++ (probe_request <$> dedupe found).
Proof.
  destruct (fetch_all_calls E sources s) as (s1 & Hf & Ht1 & Hc1 & Hsent1).
  destruct (verify_all_calls E
              (dedupe (mjoin (zip_with (fetch_result E) sources
                                (seq (tick s) (length sources))))) s1)
    as (s' & calls & Hv & Hlen & Hnd & Hall & Ht & Hc & Hsent).
  exists s1, s', calls. cbv zeta. split_and!; try done.
  - unfold harvest, bind. by rewrite Hf.
  - congruence.
  - by rewrite Hsent, Hsent1, <- app_assoc.
Qed.

Lemma harvest_scraped_between (s s' : state) (working_proxies : list proxy) :
  harvest E s = (Ok working_proxies, s') →
  (tick s ≤ tick s')%nat
  ∧ Forall (scraped_between E (tick s) (tick s')) working_proxies.
Proof.
  destruct (harvest_calls s)
    as (s1 & s2 & calls & _ & -> & Ht1 & _ & _ & _ & Ht & _).
  intros [= <- <-]. split; [lia|].
  apply Forall_forall. intros q ([p kk] & Hin & Hq)%list_elem_of_omap.
  simpl in Hq. apply probe_verdict_Some in Hq as [-> _].
  apply elem_of_zip_l in Hin.
  assert (Hp : p ∈ mjoin (zip_with (fetch_result E) sources
                            (seq (tick s) (length sources)))).
  { eapply elem_of_sublist; [exact Hin|apply dedupe_loop_sublist]. }
  apply found_scraped in Hp as (k & Hk%elem_of_seq & Hp); [|done].
  exists k. split; [lia|]. by apply scraped_at_marked.
Qed.

Lemma update_proxy_cache_ok (s : state) :
  ∃ s', update_proxy_cache E s = (Ok tt, s').
Proof.
  destruct (update_proxy_cache_eq E s) as (w & s1 & _ & _ & _ & ->).
  by eexists.
Qed.

(** The entries that a cycle writes were scraped by calls of that cycle. *)
Lemma update_proxy_cache_scraped (s : state) :
  (tick s ≤ tick (update_proxy_cache E s).2)%nat
  ∧ Forall (scraped_between E (tick s) (tick (update_proxy_cache E s).2))
           (proxies (proxy_cache (update_proxy_cache E s).2)).
Proof.
  destruct (update_proxy_cache_eq E s) as (w & s1 & Hh & _ & _ & ->).
  apply harvest_scraped_between in Hh as [Ht Hall]. simpl in *.
  split; [lia|]. eapply Forall_impl; [exact Hall|].
  intros q. apply scraped_between_mono; lia.
Qed.

Lemma cache_scraped_updated (s0 : state) :
  cache_scraped E (update_proxy_cache E s0).2.
Proof.
  destruct (update_proxy_cache_scraped s0) as [Ht Hall].
  eapply Forall_impl; [exact Hall|].
  intros q. apply scraped_between_mono; lia.
Qed.

Lemma cache_scraped_ticked (s : state) :
  cache_scraped E s → cache_scraped E (ticked s).
Proof.
  unfold cache_scraped. simpl. intros Hall.
  eapply Forall_impl; [exact Hall|].
  intros q. apply scraped_between_mono; lia.
Qed.

(** The state that [get_proxies] leaves. *)
Lemma get_proxies_state (s : state) :
  (get_proxies E s).2 = (update_proxy_cache E s).2
  ∨ (get_proxies E s).2 = (update_proxy_cache E (ticked s)).2
  ∨ (get_proxies E s).2 = ticked s.
Proof.
  unfold get_proxies, bind. rewrite cache_expired_eq.
  destruct (proxies (proxy_cache s)) as [|p ps].
  - left. destruct (update_proxy_cache_ok s) as [s1 ->].
    rewrite respond_proxies_eq. by destruct (last_updated (proxy_cache s1)).
  - destruct (last_updated (proxy_cache s)) as [lu|]; [|by right; right].
    case_bool_decide.
    + right; left. destruct (update_proxy_cache_ok (ticked s)) as [s1 ->].
      rewrite respond_proxies_eq.
      by destruct (last_updated (proxy_cache s1)).
    + right; right. change (ret () (ticked s)) with (Ok (), ticked s).
      cbv iota beta. rewrite respond_proxies_eq. simpl.
      by destruct (last_updated (proxy_cache s)).
Qed.

Lemma get_proxies_by_protocol_state (proto : string) (s : state) :
  (get_proxies_by_protocol E proto s).2 = (update_proxy_cache E s).2
  ∨ (get_proxies_by_protocol E proto s).2
    = (update_proxy_cache E (ticked s)).2
  ∨ (get_proxies_by_protocol E proto s).2 = ticked s
  ∨ (get_proxies_by_protocol E proto s).2 = s.
Proof.
  unfold get_proxies_by_protocol. case_decide; [|by right; right; right].
  unfold bind. rewrite cache_expired_eq.
  destruct (proxies (proxy_cache s)) as [|p ps].
  - left. by destruct (update_proxy_cache_ok s) as [s1 ->].
  - destruct (last_updated (proxy_cache s)) as [lu|];
      [|by right; right; left].
    case_bool_decide.
    + right; left. by destruct (update_proxy_cache_ok (ticked s)) as [s1 ->].
    + by right; right; left.
Qed.

Lemma get_stats_state (s : state) :
  (get_stats E s).2 = (update_proxy_cache E s).2 ∨ (get_stats E s).2 = s.
Proof.
  rewrite get_stats_eq. cbv zeta.
  set (s1 := match proxies (proxy_cache s) with
             | [] => (update_proxy_cache E s).2
             | _ :: _ => s
             end).
  assert (Hs1 : s1 = (update_proxy_cache E s).2 ∨ s1 = s).
  { unfold s1. destruct (proxies (proxy_cache s)); auto. }
  pose proof (count_sources_state (proxies (proxy_cache s1)) ∅ s1) as Hst.
  destruct (count_sources _ ∅ s1) as [[srcs|e] s2]; simpl in Hst; subst s2;
    [|done].
  by destruct (last_updated (proxy_cache s1)).
Qed.

Lemma handle_cache_scraped (r : request) (s : state) :
  cache_scraped E s → cache_scraped E (handle E r s).2.
Proof.
  intros Hs.
  pose proof cache_scraped_updated as Hup.
  destruct r as [|proto|]; simpl.
  - destruct (get_proxies_state s) as [-> | [-> | ->]];
      auto using cache_scraped_ticked.
  - destruct (get_proxies_by_protocol_state proto s) as [-> | [-> | [-> | ->]]];
      auto using cache_scraped_ticked.
  - destruct (get_stats_state s) as [-> | ->]; auto.
Qed.

Lemma cache_scraped_lists (s s' : state) (n : nat) (iso : string)
    (served : list proxy) (st : Z) :
  cache_scraped E s →
  get_proxies E s = (Ok (ProxiesBody n iso served, st), s') →
  cache_scraped E s'
  ∧ Forall (λ q, scraped_between E 0 (tick s') q
                 ∧ dict_get (proxy_dict q) "port" = Some (VStr (port q)))
           served.
Proof.
  intros Hs Hget.
  pose proof (handle_cache_scraped GetProxies s Hs) as Hs'.
  simpl in Hs'. rewrite Hget in Hs'. simpl in Hs'. split; [done|].
  destruct (get_proxies_response E _ _ _ Hget) as (T & _ & Heq).
  injection Heq as _ _ -> _.
  eapply Forall_impl; [exact Hs'|]. by intros q Hq.
Qed.

Lemma serve_lists_scraped (reqs : list request) (s : state) :
  cache_scraped E s →
  Forall2 (lists_scraped E) reqs (serve E reqs s).1.
Proof.
  revert s. induction reqs as [|r reqs IH]; intros s Hs; simpl.
  - constructor.
  - pose proof (handle_cache_scraped r s Hs) as Hs1.
    destruct (handle E r s) as [o s1] eqn:Hr. simpl in Hs1.
    specialize (IH s1 Hs1).
    destruct (serve E reqs s1) as [os s2]. simpl in *.
    constructor; [|done].
    destruct r as [|proto|]; [|done..].
    destruct o as [[[n iso served| | |] st]|e]; simpl; try done.
    simpl in Hr.
    destruct (cache_scraped_lists _ _ _ _ _ _ Hs Hr) as [_ Hall].
    eapply Forall_impl; [exact Hall|].
    intros q [(k & _ & Hk) Hport]. split; [by exists k|done].
Qed.

End CycleCalls.

(** ** The port of a served entry *)

(** C8, amended.  The port of every candidate built by the fetcher is the
    text of the second cell of one of the rows 1 to 19 of the first table
    of the page fetched by that very call, stripped of surrounding white
    space; it is stored as a string, with no conversion to an integer and
    no range check.  The same holds of every entry that [GET /proxies]
    serves, whether it comes from a refresh or from the cache: the cycles
    keep every cached entry scraped, in this sense, from the page that an
    earlier call returned for the configured source of the entry, and
    after a refresh the entries served were scraped by the calls of that
    refresh.  So every entry listed by a process that handles its
    requests one after the other, started with the empty cache or with
    the start-up load, carries such a string.  A row whose port text is
    "8080" gives the string "8080". *)
Theorem port_is_cell_text_in_every_answer (E : Env) :
  (∀ url parser_type s found s' p,
     fetch_proxies_from_source E url parser_type s = (Ok found, s') →
     p ∈ found →
     (∃ r t others i c0 c1 rest,
        requests_get E (tick s) url None = Some r
        ∧ BeautifulSoup E (text r) = Some (t :: others)
        ∧ (1 ≤ i ≤ 19)%nat
        ∧ t !! i = Some (c0 :: c1 :: rest)
        ∧ port p = PyStr.strip c1)
     ∧ dict_get (proxy_dict p) "port" = Some (VStr (port p)))
  ∧ (∀ s n iso served st s',
       cache_scraped E s →
       get_proxies E s = (Ok (ProxiesBody n iso served, st), s') →
       cache_scraped E s'
       ∧ Forall (λ q, scraped_between E 0 (tick s') q
                      ∧ dict_get (proxy_dict q) "port"
                        = Some (VStr (port q))) served)
  ∧ (∀ s n iso served st s',
       empty_or_stale E s →
       get_proxies E s = (Ok (ProxiesBody n iso served, st), s') →
       Forall (scraped_between E (tick s) (tick s')) served)
  ∧ (∀ reqs,
       Forall2 (lists_scraped E) reqs
         (serve E reqs (mkState initial_cache 0 [] [])).1
       ∧ Forall2 (lists_scraped E) reqs (serve E reqs (startup E)).1)
  ∧ (∀ url c0,
       dict_get (proxy_dict (row_proxy url c0 "8080")) "port"
       = Some (VStr "8080")).
Proof.
  split_and!.
  - intros url parser_type s found s' p Hfetch Hp.
    destruct (fetch_proxies_from_source_elem _ _ _ _ _ _ _ Hfetch Hp)
      as (r & t & others & c0 & c1 & rest & Hget & Hsoup & Hrow & ->).
    split; [|done].
    apply rows_slice_elem in Hrow as (i & Hi & Hrow).
    by exists r, t, others, i, c0, c1, rest.
  - intros s n iso served st s'. apply cache_scraped_lists.
  - intros s n iso served st s' Hstale Hget.
    assert (Hfrom : ∀ s0, (tick s ≤ tick s0)%nat →
      (let (o, s1) := update_proxy_cache E s0 in
       match o with
       | Ok _ => respond_proxies E s1
       | Raised e => (Raised e, s1)
       end) = (Ok (ProxiesBody n iso served, st), s') →
      Forall (scraped_between E (tick s) (tick s')) served).
    { intros s0 Ht Hrun.
      destruct (update_proxy_cache_scraped E s0) as [Ht0 Hall].
      destruct (update_proxy_cache_ok E s0) as [s1 Hup].
      rewrite Hup in Hrun, Ht0, Hall. simpl in Ht0, Hall.
      rewrite respond_proxies_eq in Hrun.
      destruct (last_updated (proxy_cache s1)); [|done].
      injection Hrun as _ _ <- _ <-.
      eapply Forall_impl; [exact Hall|].
      intros q. apply scraped_between_mono; lia. }
    unfold get_proxies, bind in Hget. rewrite cache_expired_eq in Hget.
    destruct (proxies (proxy_cache s)) as [|p ps] eqn:Hps.
    + by apply (Hfrom s).
    + destruct Hstale as [?|(T & HT & Hlate)]; [congruence|].
      rewrite HT, bool_decide_eq_true_2 in Hget by done.
      apply (Hfrom (ticked s)); [simpl; lia|done].
  - intros reqs. split; apply serve_lists_scraped.
    + by constructor.
    + apply cache_scraped_updated.
  - done.
Qed.

Lemma port_is_cell_text_in_every_answer_witness :
  cache_scraped Fixtures.one_row_world
    (get_proxies Fixtures.one_row_world Fixtures.fresh_start).2
  ∧ Forall (λ q,
       scraped_between Fixtures.one_row_world 0
         (tick (get_proxies Fixtures.one_row_world Fixtures.fresh_start).2) q
       ∧ dict_get (proxy_dict q) "port" = Some (VStr (port q)))
      [Fixtures.served_entry].
Proof.
  apply (proj1 (proj2 (port_is_cell_text_in_every_answer
                         Fixtures.one_row_world))
           Fixtures.fresh_start 1%nat "T6" [Fixtures.served_entry] 200).
  - constructor.
  - vm_compute. reflexivity.
Defined.

(** ** The harvest, call by call *)

(** X1.  A harvest always completes and does not write the cache, and its
    result is fixed by the answers received during the cycle.  Each
    configured source is fetched by one call of its own; a source whose
    request or parser raised contributes no candidate.  The candidates,
    gathered in source order, are de-duplicated, and each is probed by
    one call of its own, made after all the fetches.  The result lists,
    in that order, exactly the candidates whose probe answered 200, each
    marked as working; a candidate whose probe raised or answered
    anything else is dropped.  Every proxy returned was scraped by one of
    the fetch calls of this cycle. *)
Theorem harvest_is_fixed_by_the_answers (E : Env) (s : state) :
  ∃ found working_proxies s' fetch_calls probe_calls k_mid,
    harvest E s = (Ok working_proxies, s')
    ∧ proxy_cache s' = proxy_cache s
    ∧ length fetch_calls = length sources
    ∧ NoDup fetch_calls
    ∧ Forall (λ k, (tick s ≤ k < k_mid)%nat) fetch_calls
    ∧ found = mjoin (zip_with (fetch_result E) sources fetch_calls)
    ∧ length probe_calls = length (dedupe found)
    ∧ NoDup probe_calls.*1
    ∧ Forall (λ kk, (k_mid ≤ kk.1 < tick s')%nat) probe_calls
    ∧ working_proxies
      = omap (λ pk, probe_verdict E pk.1 pk.2) (zip (dedupe found) probe_calls)
    ∧ (∀ src k,
         requests_get E k src.1 None = None
         ∨ (∃ r, requests_get E k src.1 None = Some r
                 ∧ BeautifulSoup E (text r) = None) →
         fetch_result E src k = [])
    ∧ (∀ p kk,
         ¬ (∃ r, requests_get E kk.1 TEST_URL (Some (proxy_url p)) = Some r
                 ∧ status_code r = 200) →
         probe_verdict E p kk = None)
    ∧ (∀ p kk q,
         probe_verdict E p kk = Some q →
         q = mark_working p (isoformat E (datetime_now E kk.2))
         ∧ ∃ r, requests_get E kk.1 TEST_URL (Some (proxy_url p)) = Some r
                ∧ status_code r = 200)
    ∧ (∀ q, q ∈ working_proxies →
         working q = Some true
         ∧ ∃ k, k ∈ fetch_calls ∧ scraped_at E k q).
Proof.
  destruct (harvest_calls E s)
    as (s1 & s' & calls & Hf & Hh & Ht1 & Hlen & Hnd & Hall & Ht & Hc & _).
  cbv zeta in Hf, Hh, Hlen.
  exists (mjoin (zip_with (fetch_result E) sources
                   (seq (tick s) (length sources)))),
    (omap (λ pk, probe_verdict E pk.1 pk.2)
       (zip (dedupe (mjoin (zip_with (fetch_result E) sources
                              (seq (tick s) (length sources))))) calls)),
    s', (seq (tick s) (length sources)), calls, (tick s1).
  split_and!.
  - exact Hh.
  - exact Hc.
  - apply length_seq.
  - apply NoDup_seq.
  - apply Forall_forall. intros k Hk%elem_of_seq. lia.
  - reflexivity.
  - exact Hlen.
  - exact Hnd.
  - eapply Forall_impl; [exact Hall|]. by intros kk [? _].
  - reflexivity.
  - apply fetch_result_failed.
  - apply probe_verdict_failed.
  - intros p kk q. apply probe_verdict_Some.
  - intros q ([p kk] & Hin & Hq)%list_elem_of_omap.
    simpl in Hq. apply probe_verdict_Some in Hq as [-> _].
    split; [done|]. apply elem_of_zip_l in Hin.
    assert (Hp : p ∈ mjoin (zip_with (fetch_result E) sources
                              (seq (tick s) (length sources)))).
    { eapply elem_of_sublist; [exact Hin|apply dedupe_loop_sublist]. }
    apply found_scraped in Hp as (k & Hk & Hp); [|done].
    exists k. split; [done|]. by apply scraped_at_marked.
Qed.

Lemma omap_length_le {A B} (f : A → option B) (l : list A) :
  (length (omap f l) ≤ length l)%nat.
Proof.
  induction l as [|a l IH]; [done|].
  simpl. destruct (f a); simpl; [apply le_n_S|apply le_S]; exact IH.
Qed.

(** X7.  The verification fan-out never raises and does not touch the
    cache.  It sends one probe per candidate, each by a call of its own,
    and nothing else, and it returns exactly the candidates whose own
    probe answered 200, marked as working, in the order of the input. *)
Theorem verify_all_keeps_the_accepted (E : Env) (ps : list proxy)
    (s : state) :
  ∃ kept s' calls probes,
    verify_all E ps s = (Ok kept, s')
    ∧ proxy_cache s' = proxy_cache s
    ∧ length calls = length ps
    ∧ NoDup calls.*1
    ∧ kept = omap (λ pk, probe_verdict E pk.1 pk.2) (zip ps calls)
    ∧ (∀ p kk,
         probe_verdict E p kk
         = match requests_get E kk.1 TEST_URL (Some (proxy_url p)) with
           | Some r =>
               if decide (status_code r = 200)
               then Some (mark_working p
                            (isoformat E (datetime_now E kk.2)))
               else None
           | None => None
           end)
    ∧ sent s' = sent s ++ probes
    ∧ probes ≡ₚ probe_request <$> ps
    ∧ (length kept ≤ length ps)%nat.
Proof.
  destruct (verify_all_calls E ps s)
    as (s' & calls & Hv & Hlen & Hnd & _ & _ & Hc & Hsent).
  eexists _, s', calls, (probe_request <$> ps).
  split_and!; try done.
  etrans; [apply omap_length_le|]. rewrite length_zip. lia.
Qed.

(** X8.  The requests of a harvest are one fetch per configured source,
    all sent before the first probe, and then one probe per de-duplicated
    candidate, and nothing else: at most 76 candidates are fetched and at
    most 80 requests are sent in a cycle. *)
Theorem harvest_request_budget (E : Env) (s : state) :
  ∃ found s1 working_proxies s' fetches probes,
    fetch_all E sources s = (Ok found, s1)
    ∧ harvest E s = (Ok working_proxies, s')
    ∧ sent s' = sent s ++ fetches ++ probes
    ∧ fetches ≡ₚ source_request <$> sources
    ∧ probes ≡ₚ probe_request <$> dedupe found
    ∧ (length found ≤ 76)%nat
    ∧ (length working_proxies ≤ length (dedupe found) ≤ length found)%nat
    ∧ (length (sent s') ≤ length (sent s) + 80)%nat.
Proof.
  destruct (fetch_all_spec E sources s) as (found & s1 & Hf & Hsent1 & Hlen & _).
  destruct (verify_all_spec E (dedupe found) s1)
    as (kept & s' & passed & Hv & Hsent2 & _ & Hsub & Hall).
  exists found, s1, kept, s', (source_request <$> sources),
    (probe_request <$> dedupe found).
  assert (Hd : (length (dedupe found) ≤ length found)%nat)
    by apply sublist_length, dedupe_loop_sublist.
  assert (Hk : (length kept ≤ length (dedupe found))%nat).
  { rewrite <- (Forall2_length _ _ _ Hall). by apply sublist_length. }
  simpl in Hlen. split_and!; try done.
  - unfold harvest, bind. by rewrite Hf.
  - by rewrite Hsent2, Hsent1, <- app_assoc.
  - rewrite Hsent2, Hsent1, !length_app, !length_fmap. simpl. lia.
Qed.
